(** * GaragePro: the tenant-scoped vehicle-service record API (server.ts)

    A shallow embedding of the Express handlers of [server.ts] and of the
    dashboard's service-date predicates.  The SQLite database is an explicit
    value threaded through every handler; the libraries the server calls
    (bcryptjs, jsonwebtoken, the text/number conversions of SQLite, date-fns'
    [parseISO] and [addDays]) are parameters of the development. *)

From Stdlib Require Import ZArith Lia Ascii String DecimalString.
From stdpp Require Import base option list sorting gmap strings.

Open Scope Z_scope.

(** ** JavaScript values of a parsed JSON body *)

(** A value of [req.body].  A key that is missing from the body reads as
    [undefined], which is [None] of [option JsValue] throughout.
    [JsPlainObject] stands for a nested object, whose keys no statement
    reads. *)
#[local] Unset Elimination Schemes.
Inductive JsValue :=
| JsNull
| JsBoolean (b : bool)
| JsNumber (n : Z)
| JsString (s : string)
| JsArray (elems : list JsValue)
| JsPlainObject.
#[local] Set Elimination Schemes.

(** [req.body]: a JavaScript object used as a map from keys to values. *)
Abbreviation JsObject := (gmap string JsValue) (only parsing).

(** [typeof v], as bcryptjs prints it in its error message. *)
Definition typeof (v : option JsValue) : string :=
  match v with
  | None => "undefined"
  | Some JsNull => "object"
  | Some (JsBoolean _) => "boolean"
  | Some (JsNumber _) => "number"
  | Some (JsString _) => "string"
  | Some (JsArray _) => "object"
  | Some JsPlainObject => "object"
  end.

(** ** Exceptions *)

(** A thrown [Error]; the handlers only ever look at its [message]. *)
Record Exception := { message : string }.

Definition Throws (A : Type) : Type := Exception + A.

Definition throw {A} (msg : string) : Throws A := inl {| message := msg |}.

#[global] Instance Throws_ret : MRet Throws := λ A x, inr x.
#[global] Instance Throws_bind : MBind Throws := λ A B f m,
  match m with
  | inl e => inl e
  | inr x => f x
  end.

(** [haystack.includes(needle)] on strings. *)
Fixpoint includes (haystack needle : string) : bool :=
  String.prefix needle haystack ||
  match haystack with
  | EmptyString => false
  | String _ rest => includes rest needle
  end.

(** [s.split(" ")]: the pieces between single spaces, empty pieces kept. *)
Fixpoint split_space (s : string) : list string :=
  match s with
  | EmptyString => [EmptyString]
  | String c rest =>
      if Ascii.eqb c " "%char then EmptyString :: split_space rest
      else match split_space rest with
           | [] => [String c EmptyString]
           | w :: ws => String c w :: ws
           end
  end.

(** Whether a string holds a space. *)
Fixpoint has_space (s : string) : bool :=
  match s with
  | EmptyString => false
  | String c rest => Ascii.eqb c " "%char || has_space rest
  end.

(** [needle] occurs in [haystack] as a run of consecutive characters. *)
Definition occurs_in (needle haystack : string) : Prop :=
  ∃ before after, haystack = before +:+ needle +:+ after.

(** ** Binding the arguments of a statement (better-sqlite3) *)

(** What a parameter of a statement holds once bound.  A JavaScript number
    is bound as a REAL. *)
Inductive SqlValue :=
| SqlNULL
| SqlREAL (n : Z)
| SqlTEXT (s : string).

(** The value handed to SQLite for one JavaScript value; [None] for a value
    that cannot be bound.  [undefined] is bound like [null]. *)
Definition bind_value (v : option JsValue) : option SqlValue :=
  match v with
  | None | Some JsNull => Some SqlNULL
  | Some (JsNumber n) => Some (SqlREAL n)
  | Some (JsString s) => Some (SqlTEXT s)
  | Some (JsBoolean _) | Some (JsArray _) | Some JsPlainObject => None
  end.

(** Binding one value to the next anonymous parameter, [bound] being the
    values of the parameters before it. *)
Definition bind_next (param_count : nat) (bound : list SqlValue)
    (v : option JsValue) : Throws (list SqlValue) :=
  match bind_value v with
  | None =>
      throw "SQLite3 can only bind numbers, strings, bigints, buffers, and null"
  | Some value =>
      if (length bound <? param_count)%nat
      then mret (bound ++ [value])
      else throw "Too many parameter values were provided"
  end.

(** An array argument: each of its elements goes to the next parameter. *)
Fixpoint bind_array (param_count : nat) (bound : list SqlValue)
    (elems : list JsValue) : Throws (list SqlValue) :=
  match elems with
  | [] => mret bound
  | v :: elems =>
      bound ← bind_next param_count bound (Some v);
      bind_array param_count bound elems
  end.

(** The arguments of [run], [get] or [all], in order.  An array is spread
    over the parameters; a plain object would name parameters, of which the
    statements of the server have none, and only one such object is allowed;
    anything else is one value.  In the end every parameter must be bound. *)
Fixpoint bind_arguments (param_count : nat) (bound : list SqlValue)
    (bound_object : bool) (args : list (option JsValue))
    : Throws (list SqlValue) :=
  match args with
  | [] =>
      if (length bound <? param_count)%nat
      then throw "Too few parameter values were provided"
      else mret bound
  | Some (JsArray elems) :: args =>
      bound ← bind_array param_count bound elems;
      bind_arguments param_count bound bound_object args
  | Some JsPlainObject :: args =>
      if bound_object
      then throw "You cannot specify named parameters in two different objects"
      else bind_arguments param_count bound true args
  | v :: args =>
      bound ← bind_next param_count bound v;
      bind_arguments param_count bound bound_object args
  end.

Definition bind_parameters (param_count : nat) (args : list (option JsValue))
    : Throws (list SqlValue) :=
  bind_arguments param_count [] false args.

(** The value of the [i]-th [?] of a statement, counted from 1. *)
Definition param (values : list SqlValue) (i : nat) : SqlValue :=
  nth (i - 1) values SqlNULL.

(** ** The database *)

(** A TEXT column holds NULL ([None]) or a text. *)
Abbreviation SqlText := (option string) (only parsing).

(** Table [users]. *)
Module Users.
Record row := {
  id : Z;
  email : SqlText;
  password : SqlText;
  garage_name : SqlText;
}.
End Users.

(** Table [vehicles]. *)
Module Vehicles.
Record row := {
  id : Z;
  user_id : Z;
  owner_name : SqlText;
  phone : SqlText;
  vehicle_number : SqlText;
  make : SqlText;
  model : SqlText;
  last_service_date : SqlText;
  next_service_date : SqlText;
  notes : SqlText;
}.
End Vehicles.

#[global] Instance Users_row_eq_dec : EqDecision Users.row.
Proof. solve_decision. Defined.
#[global] Instance Vehicles_row_eq_dec : EqDecision Vehicles.row.
Proof. solve_decision. Defined.

(** The two tables, each a list of rows in insertion order, with the
    [sqlite_sequence] counter that AUTOINCREMENT keeps for it. *)
Record Db := {
  users : list Users.row;
  users_seq : Z;
  vehicles : list Vehicles.row;
  vehicles_seq : Z;
}.

(** The database right after the CREATE TABLE IF NOT EXISTS statements on a
    fresh file. *)
Definition empty_db : Db :=
  {| users := []; users_seq := 0; vehicles := []; vehicles_seq := 0 |}.

(** AUTOINCREMENT: the new rowid is one more than the largest rowid the
    table has ever held. *)
Definition new_rowid (seq : Z) (ids : list Z) : Z :=
  Z.max seq (foldr Z.max 0 ids) + 1.

(** ** The session claim carried by a token *)

Record Claim := {
  userId : Z;
  claim_email : option JsValue;
  claim_garageName : option JsValue;
}.

(** ** Responses *)

Inductive ResBody :=
| ErrorBody (error : string)
    (* { error } *)
| AuthBody (token : string) (email garageName : option JsValue)
    (* { token, user: { email, garageName } } *)
| VehiclesBody (rows : list Vehicles.row)
    (* the selected rows *)
| ObjectBody (o : JsObject)
    (* a flat object *)
| SuccessBody
    (* { success: true } *)
| UncaughtBody (e : Exception).
    (* Express' own answer to an exception no handler caught *)

Record Response := { status : Z; json : ResBody }.

(** NULL reads back as [null], a text as a string. *)
Definition js_of_text (t : SqlText) : JsValue :=
  match t with
  | None => JsNull
  | Some s => JsString s
  end.

(** A body field that is a string, [null], or left out. *)
Definition textual (v : option JsValue) : Prop :=
  match v with
  | None | Some JsNull | Some (JsString _) => True
  | _ => False
  end.

#[global] Instance textual_dec v : Decision (textual v).
Proof. destruct v as [[]|]; simpl; apply _. Defined.

(** What a TEXT column holds for such a field: the string, or NULL. *)
Definition text_of (v : option JsValue) : SqlText :=
  match v with
  | Some (JsString s) => Some s
  | _ => None
  end.

(** The eight keys the vehicle routes read from [req.body], each with the
    column of [vehicles] it is written to. *)
Definition vehicle_columns : list (string * (Vehicles.row → SqlText)) :=
  [ ("owner_name", Vehicles.owner_name);
    ("phone", Vehicles.phone);
    ("vehicle_number", Vehicles.vehicle_number);
    ("make", Vehicles.make);
    ("model", Vehicles.model);
    ("last_service_date", Vehicles.last_service_date);
    ("next_service_date", Vehicles.next_service_date);
    ("notes", Vehicles.notes) ].

(** ** The dashboard (the React component) *)

(** A JavaScript [Date]: milliseconds since the epoch, or [None] for an
    Invalid Date. *)
Abbreviation Date := (option Z) (only parsing).

(** date-fns [isBefore] and [isAfter]: comparisons of the two instants,
    false as soon as one of them is invalid. *)
Definition isBefore (date dateToCompare : Date) : bool :=
  match date, dateToCompare with
  | Some a, Some b => a <? b
  | _, _ => false
  end.

Definition isAfter (date dateToCompare : Date) : bool :=
  match date, dateToCompare with
  | Some a, Some b => a >? b
  | _, _ => false
  end.

(** [interface Vehicle]. *)
Module Vehicle.
Record t := {
  id : Z;
  owner_name : string;
  phone : string;
  vehicle_number : string;
  make : string;
  model : string;
  last_service_date : string;
  next_service_date : string;
  notes : string;
}.
End Vehicle.

(** The [vehicleForm] state, sent as [JSON.stringify(vehicleForm)]. *)
Module VehicleForm.
Record t := {
  owner_name : string;
  phone : string;
  vehicle_number : string;
  make : string;
  model : string;
  last_service_date : string;
  next_service_date : string;
  notes : string;
}.

Definition to_json (f : t) : JsObject :=
  list_to_map
    [ ("owner_name", JsString (owner_name f));
      ("phone", JsString (phone f));
      ("vehicle_number", JsString (vehicle_number f));
      ("make", JsString (make f));
      ("model", JsString (model f));
      ("last_service_date", JsString (last_service_date f));
      ("next_service_date", JsString (next_service_date f));
      ("notes", JsString (notes f)) ].

(** The row that holds exactly the fields of the form. *)
Definition to_row (id user_id : Z) (f : t) : Vehicles.row :=
  {| Vehicles.id := id; Vehicles.user_id := user_id;
     Vehicles.owner_name := Some (owner_name f);
     Vehicles.phone := Some (phone f);
     Vehicles.vehicle_number := Some (vehicle_number f);
     Vehicles.make := Some (make f);
     Vehicles.model := Some (model f);
     Vehicles.last_service_date := Some (last_service_date f);
     Vehicles.next_service_date := Some (next_service_date f);
     Vehicles.notes := Some (notes f) |}.
End VehicleForm.

(** The [authForm] state, sent as [JSON.stringify(authForm)]. *)
Module AuthForm.
Record t := {
  email : string;
  password : string;
  garageName : string;
}.

Definition to_json (f : t) : JsObject :=
  list_to_map
    [ ("email", JsString (email f));
      ("password", JsString (password f));
      ("garageName", JsString (garageName f)) ].
End AuthForm.

(** The three states a record's next service date can be in. *)
Inductive Status := Overdue | UpcomingWithin7Days | Scheduled.

#[global] Instance Status_eq_dec : EqDecision Status.
Proof. solve_decision. Defined.

Record Stats := { total : nat; overdue : nat; upcoming : nat }.

Section Dashboard.

(** date-fns [parseISO] and [addDays]. *)
Variable parseISO : string → Date.
Variable addDays : Z → Z → Z.

(** The filter of [stats.overdue], the same test as [isOverdue] on a
    card. *)
Definition is_overdue (next : Date) (today : Z) : bool :=
  isBefore next (Some today).

(** The filter of [stats.upcoming]. *)
Definition is_upcoming (next : Date) (today : Z) : bool :=
  isAfter next (Some today) && isBefore next (Some (addDays today 7)).

(** [stats], with [today = new Date()] passed in. *)
Definition stats (vehicles : list Vehicle.t) (today : Z) : Stats :=
  {| total := length vehicles;
     overdue :=
       length (filter
         (λ v, is_overdue (parseISO (Vehicle.next_service_date v)) today)
         vehicles);
     upcoming :=
       length (filter
         (λ v, is_upcoming (parseISO (Vehicle.next_service_date v)) today)
         vehicles) |}.

(** [isOverdue] of a vehicle card, with [new Date()] passed in. *)
Definition isOverdue (v : Vehicle.t) (now : Z) : bool :=
  is_overdue (parseISO (Vehicle.next_service_date v)) now.

(** The status the two filters give a record: counted as overdue, counted
    as upcoming, or neither. *)
Definition derived_status (next : Date) (now : Z) : Status :=
  if is_overdue next now then Overdue
  else if is_upcoming next now then UpcomingWithin7Days
  else Scheduled.

(** The classification in the words of the specification: Overdue if
    next < now; UpcomingWithin7Days if now ≤ next < now+7days; else
    Scheduled. *)
Definition spec_status (next now : Z) : Status :=
  if bool_decide (next < now) then Overdue
  else if bool_decide (now ≤ next ∧ next < addDays now 7)
       then UpcomingWithin7Days
  else Scheduled.

End Dashboard.

(** ** The vehicle list and the edit form of the React component *)

Section Search.

(** [String.prototype.toLowerCase]. *)
Variable toLowerCase : string → string.

(** The test of [filteredVehicles]. *)
Definition search_matches (search : string) (v : Vehicle.t) : bool :=
  includes (toLowerCase (Vehicle.owner_name v)) (toLowerCase search) ||
  includes (toLowerCase (Vehicle.vehicle_number v)) (toLowerCase search) ||
  includes (Vehicle.phone v) search.

(** [filteredVehicles]. *)
Definition filteredVehicles (vehicles : list Vehicle.t) (search : string)
    : list Vehicle.t :=
  filter (λ v, search_matches search v) vehicles.

End Search.

(** [openEditModal]: the form is filled with the fields of the vehicle. *)
Definition openEditModal (v : Vehicle.t) : VehicleForm.t :=
  {| VehicleForm.owner_name := Vehicle.owner_name v;
     VehicleForm.phone := Vehicle.phone v;
     VehicleForm.vehicle_number := Vehicle.vehicle_number v;
     VehicleForm.make := Vehicle.make v;
     VehicleForm.model := Vehicle.model v;
     VehicleForm.last_service_date := Vehicle.last_service_date v;
     VehicleForm.next_service_date := Vehicle.next_service_date v;
     VehicleForm.notes := Vehicle.notes v |}.

(** A row of [GET /api/vehicles] as the component reads it, for a row
    whose TEXT columns all hold a text. *)
Definition vehicle_of_row (r : Vehicles.row) : option Vehicle.t :=
  owner_name ← Vehicles.owner_name r;
  phone ← Vehicles.phone r;
  vehicle_number ← Vehicles.vehicle_number r;
  make ← Vehicles.make r;
  model ← Vehicles.model r;
  last_service_date ← Vehicles.last_service_date r;
  next_service_date ← Vehicles.next_service_date r;
  notes ← Vehicles.notes r;
  Some {| Vehicle.id := Vehicles.id r;
          Vehicle.owner_name := owner_name; Vehicle.phone := phone;
          Vehicle.vehicle_number := vehicle_number; Vehicle.make := make;
          Vehicle.model := model;
          Vehicle.last_service_date := last_service_date;
          Vehicle.next_service_date := next_service_date;
          Vehicle.notes := notes |}.

(** An integer id inside a template literal, [`/api/vehicles/${id}`]: its
    decimal digits, as JavaScript prints the integers a rowid can be. *)
Definition id_string (id : Z) : string :=
  NilZero.string_of_int (Z.to_int id).

(** ** Stand-ins for the libraries, to run the model on examples *)

Module Toy.
(** No daylight-saving shift: a day is 86400000 ms. *)
Definition addDays (date amount : Z) : Z := date + amount * 86400000.

(** The days from 1970-01-01 to a day of the Gregorian calendar. *)
Definition days_from_civil (y m d : Z) : Z :=
  let y := if m <=? 2 then y - 1 else y in
  let era := y / 400 in
  let yoe := y - era * 400 in
  let doy := (153 * (if m >? 2 then m - 3 else m + 9) + 2) / 5 + d - 1 in
  let doe := yoe * 365 + yoe / 4 - yoe / 100 + doy in
  era * 146097 + doe - 719468.

Definition digits (s : string) : option Z :=
  Z.of_int <$> NilZero.int_of_string s.

(** Date-only strings [yyyy-MM-dd], read as midnight UTC; anything else
    is an Invalid Date. *)
Definition parseISO (s : string) : Date :=
  if bool_decide (String.length s = 10%nat ∧
                  String.substring 4 1 s = "-" ∧
                  String.substring 7 1 s = "-")
  then
    y ← digits (String.substring 0 4 s);
    m ← digits (String.substring 5 2 s);
    d ← digits (String.substring 8 2 s);
    if bool_decide (1 ≤ m ≤ 12 ∧ 1 ≤ d ≤ 31)
    then Some (days_from_civil y m d * 86400000)
    else None
  else None.

Definition number_to_text (n : Z) : string :=
  NilZero.string_of_int (Z.to_int n) +:+ ".0".

Definition text_to_integer (s : string) : option Z :=
  Z.of_int <$> NilZero.int_of_string s.

(** The text after the first colon. *)
Fixpoint after_colon (s : string) : string :=
  match s with
  | EmptyString => EmptyString
  | String c rest => if Ascii.eqb c ":"%char then rest else after_colon rest
  end.

Definition bcrypt_hash (s : string) (rounds : Z) (salt : string) : string :=
  salt +:+ ":" +:+ s.

Definition bcrypt_compare (s hash : string) : bool :=
  bool_decide (after_colon hash = s).

(** A token is the secret, a colon, and the account id. *)
Definition jwt_sign (payload : Claim) (secret : string) : string :=
  secret +:+ ":" +:+ NilZero.string_of_int (Z.to_int (userId payload)).

Definition jwt_verify (token secret : string) : option Claim :=
  if String.prefix (secret +:+ ":") token
  then (λ n, {| userId := n; claim_email := None; claim_garageName := None |})
         <$> text_to_integer (after_colon token)
  else None.
End Toy.

(** The rows of [vehicles] that belong to an account. *)
Definition owned_by (user_id : Z) (r : Vehicles.row) : Prop :=
  Vehicles.user_id r = user_id.

#[global] Instance owned_by_dec user_id r : Decision (owned_by user_id r).
Proof. unfold owned_by. apply _. Defined.

(** Rowids grow along the table: [id] is the PRIMARY KEY, handed out by
    AUTOINCREMENT, and rows are kept in insertion order. *)
Definition id_lt (r1 r2 : Vehicles.row) : Prop :=
  Vehicles.id r1 < Vehicles.id r2.

#[global] Instance id_lt_dec r1 r2 : Decision (id_lt r1 r2).
Proof. unfold id_lt. apply _. Defined.

Definition rowids_increasing (db : Db) : Prop :=
  StronglySorted id_lt (vehicles db).

(** [ORDER BY id DESC]: a row comes before the rows of smaller id. *)
Definition id_desc (r1 r2 : Vehicles.row) : Prop :=
  Vehicles.id r2 ≤ Vehicles.id r1.

#[global] Instance id_desc_dec r1 r2 : Decision (id_desc r1 r2).
Proof. unfold id_desc. apply _. Defined.

(** No two rows of [users] hold the same email text. *)
Definition emails_unique (db : Db) : Prop :=
  NoDup (omap Users.email (users db)).

(** Account ids grow along [users]. *)
Definition user_id_lt (u1 u2 : Users.row) : Prop :=
  Users.id u1 < Users.id u2.

#[global] Instance user_id_lt_dec u1 u2 : Decision (user_id_lt u1 u2).
Proof. unfold user_id_lt. apply _. Defined.

Definition accounts_ok (db : Db) : Prop :=
  emails_unique db ∧ StronglySorted user_id_lt (users db).

(** The [sqlite_sequence] counter of [vehicles] is at least every rowid in
    the table. *)
Definition seq_dominates (db : Db) : Prop :=
  Forall (λ r, Vehicles.id r ≤ vehicles_seq db) (vehicles db).

(** ** Example data *)

Module Demo.
Definition secret : string := "fallback-secret".

(** Two sessions of two accounts. *)
Definition alice : Claim :=
  {| userId := 1; claim_email := Some (JsString "a@x.com");
     claim_garageName := Some (JsString "Bob's Garage") |}.
Definition carol : Claim :=
  {| userId := 2; claim_email := Some (JsString "c@y.com");
     claim_garageName := Some (JsString "Carol's Cars") |}.

Definition jane : VehicleForm.t :=
  {| VehicleForm.owner_name := "Jane"; VehicleForm.phone := "555";
     VehicleForm.vehicle_number := "AB123"; VehicleForm.make := "Honda";
     VehicleForm.model := "City";
     VehicleForm.last_service_date := "2024-01-01";
     VehicleForm.next_service_date := "2024-01-02";
     VehicleForm.notes := EmptyString |}.

Definition omar : VehicleForm.t :=
  {| VehicleForm.owner_name := "Omar"; VehicleForm.phone := "777";
     VehicleForm.vehicle_number := "XY987"; VehicleForm.make := "Kia";
     VehicleForm.model := "Rio";
     VehicleForm.last_service_date := "2024-02-01";
     VehicleForm.next_service_date := "2024-05-01";
     VehicleForm.notes := "brakes" |}.

(** Two accounts; the first owns rows 1 and 3, the second row 2. *)
Definition db : Db :=
  {| users :=
       [ {| Users.id := 1; Users.email := Some "a@x.com";
            Users.password := Some (Toy.bcrypt_hash "pw123" 10 "s1");
            Users.garage_name := Some "Bob's Garage" |};
         {| Users.id := 2; Users.email := Some "c@y.com";
            Users.password := Some (Toy.bcrypt_hash "hunter2" 10 "s2");
            Users.garage_name := Some "Carol's Cars" |} ];
     users_seq := 2;
     vehicles :=
       [ VehicleForm.to_row 1 1 jane;
         VehicleForm.to_row 2 2 omar;
         VehicleForm.to_row 3 1 omar ];
     vehicles_seq := 3 |}.

(** The account of the scenario, and a second signup under its email. *)
Definition first_signup : AuthForm.t :=
  {| AuthForm.email := "a@x.com"; AuthForm.password := "pw123";
     AuthForm.garageName := "Bob's Garage" |}.
Definition second_signup : AuthForm.t :=
  {| AuthForm.email := "a@x.com"; AuthForm.password := "letmein";
     AuthForm.garageName := "Another Garage" |}.


(** A create body that carries an [id] of its own. *)
Definition body_with_id : JsObject :=
  <["id" := JsNumber 999]> (VehicleForm.to_json jane).

(** A create body whose [phone] is a JSON number. *)
Definition numeric_phone : JsObject :=
  <["phone" := JsNumber 555]> (VehicleForm.to_json jane).


(** 2024-01-02T00:00:00Z and noon of the same day. *)
Definition midnight : Z := 1704153600000.
Definition noon : Z := 1704196800000.

Definition jane_vehicle : Vehicle.t :=
  {| Vehicle.id := 1; Vehicle.owner_name := "Jane"; Vehicle.phone := "555";
     Vehicle.vehicle_number := "AB123"; Vehicle.make := "Honda";
     Vehicle.model := "City"; Vehicle.last_service_date := "2024-01-01";
     Vehicle.next_service_date := "2024-01-02"; Vehicle.notes := EmptyString |}.
End Demo.

(** A request to one of the six routes.  [salt] is the randomness
    [bcrypt.hash] draws during a signup. *)
Inductive Request :=
| PostSignup (body : JsObject) (salt : string)
| PostLogin (body : JsObject)
| GetVehicles (authorization : option string)
| PostVehicles (authorization : option string) (body : JsObject)
| PutVehicle (authorization : option string) (id : string) (body : JsObject)
| DeleteVehicle (authorization : option string) (id : string).

(** The requests the component sends, [token] being its session token. *)
Definition bearer (token : string) : option string :=
  Some ("Bearer " +:+ token).

(** [fetchVehicles]. *)
Definition fetchVehicles (token : string) : Request :=
  GetVehicles (bearer token).

(** [handleVehicleSubmit]: a PUT to the edited vehicle's id, a POST when no
    vehicle is being edited. *)
Definition handleVehicleSubmit (token : string)
    (editingVehicle : option Vehicle.t) (vehicleForm : VehicleForm.t)
    : Request :=
  match editingVehicle with
  | Some v =>
      PutVehicle (bearer token) (id_string (Vehicle.id v))
        (VehicleForm.to_json vehicleForm)
  | None => PostVehicles (bearer token) (VehicleForm.to_json vehicleForm)
  end.

(** [deleteVehicle], once the user has confirmed. *)
Definition deleteVehicle (token : string) (id : Z) : Request :=
  DeleteVehicle (bearer token) (id_string id).

(** ** More example data *)

Module Sample.
(** The claim the stand-in [jwt.verify] decodes from Alice's token. *)
Definition token : string := "fallback-secret:1".
Definition alice : Claim :=
  {| userId := 1; claim_email := None; claim_garageName := None |}.

(** Carol's token and claim, and the headers of the two sessions. *)
Definition carol : Claim :=
  {| userId := 2; claim_email := None; claim_garageName := None |}.
Definition alice_header : option string := bearer token.
Definition carol_header : option string := bearer "fallback-secret:2".

(** Alice's two rows in [Demo.db]. *)
Definition row_1 : Vehicles.row := VehicleForm.to_row 1 1 Demo.jane.
Definition row_3 : Vehicles.row := VehicleForm.to_row 3 1 Demo.omar.

(** Alice deletes her record 3, then creates a record. *)
Definition delete_then_create : list Request :=
  [ deleteVehicle token 3;
    handleVehicleSubmit token None Demo.jane ].

Definition vehicles : list Vehicle.t :=
  [ Demo.jane_vehicle;
    {| Vehicle.id := 3; Vehicle.owner_name := "Omar"; Vehicle.phone := "777";
       Vehicle.vehicle_number := "XY987"; Vehicle.make := "Kia";
       Vehicle.model := "Rio"; Vehicle.last_service_date := "2024-02-01";
       Vehicle.next_service_date := "2024-05-01";
       Vehicle.notes := "brakes" |} ].
End Sample.

(** ** The server *)

Section Server.

#[local] Set Default Proof Using "Type".

(** [process.env.JWT_SECRET || "fallback-secret"]. *)
Variable JWT_SECRET : string.

(** bcryptjs on strings: [hash(s, rounds)] draws a random salt, made an
    explicit argument here; [compare(s, hash)]. *)
Variable bcrypt_hash : string → Z → string → string.
Variable bcrypt_compare : string → string → bool.

(** jsonwebtoken: [sign(payload, secret)], and [verify(token, secret)],
    where [None] stands for the exception [verify] throws. *)
Variable jwt_sign : Claim → string → string.
Variable jwt_verify : string → string → option Claim.

(** SQLite's conversions: the text a number bound to a TEXT column is
    stored as, and the integer a text compared with an INTEGER column
    stands for (if it looks like one). *)
Variable number_to_text : Z → string.
Variable text_to_integer : string → option Z.

(** *** Statements *)

(** A bound value in a TEXT column, or compared with one: a number is
    turned into its text. *)
Definition text_affinity (v : SqlValue) : SqlText :=
  match v with
  | SqlNULL => None
  | SqlREAL n => Some (number_to_text n)
  | SqlTEXT s => Some s
  end.

(** A bound value in an INTEGER column, or compared with one: a text that
    looks like an integer is turned into it. *)
Definition integer_affinity (v : SqlValue) : option Z :=
  match v with
  | SqlNULL => None
  | SqlREAL n => Some n
  | SqlTEXT s => text_to_integer s
  end.

(** [INSERT INTO users (email, password, garage_name) VALUES (?, ?, ?)];
    returns [lastInsertRowid].  [email] is UNIQUE: a second row with the
    same text is refused (NULLs never collide). *)
Definition users_insert (email password garage_name : option JsValue)
    (db : Db) : Throws (Z * Db) :=
  values ← bind_parameters 3 [email; password; garage_name];
  let e := text_affinity (param values 1) in
  let p := text_affinity (param values 2) in
  let g := text_affinity (param values 3) in
  if bool_decide (is_Some e ∧ e ∈ Users.email <$> users db)
  then throw "UNIQUE constraint failed: users.email"
  else
    let rowid := new_rowid (users_seq db) (Users.id <$> users db) in
    mret (rowid,
          {| users := users db ++
               [ {| Users.id := rowid; Users.email := e;
                    Users.password := p; Users.garage_name := g |} ];
             users_seq := rowid;
             vehicles := vehicles db;
             vehicles_seq := vehicles_seq db |}).

(** [SELECT * FROM users WHERE email = ?], [.get(email)]: the first
    matching row, or [undefined]. *)
Definition users_get_by_email (email : option JsValue) (db : Db)
    : Throws (option Users.row) :=
  values ← bind_parameters 1 [email];
  mret (match text_affinity (param values 1) with
        | None => None
        | Some s => List.find (λ u, bool_decide (Users.email u = Some s)) (users db)
        end).

(** [SELECT * FROM vehicles WHERE user_id = ? ORDER BY id DESC]. *)
Definition vehicles_select (user_id : Z) (db : Db) : list Vehicles.row :=
  merge_sort id_desc
    (filter (owned_by user_id) (vehicles db)).

(** [INSERT INTO vehicles (user_id, owner_name, ..., notes) VALUES (...)],
    run with the account id of the session ([req.user.userId], a number) and
    the eight fields of the body; returns [lastInsertRowid].  The value of
    the first [?] goes to [user_id], which is the account id itself, the
    first argument and not an array.  [user_id] REFERENCES [users(id)], and
    better-sqlite3 has foreign keys enforced: a row whose [user_id] is no
    account's id is refused. *)
Definition vehicles_insert (user_id : Z)
    (owner_name phone vehicle_number make model
     last_service_date next_service_date notes : option JsValue)
    (db : Db) : Throws (Z * Db) :=
  values ← bind_parameters 9
    [ Some (JsNumber user_id); owner_name; phone; vehicle_number; make; model;
      last_service_date; next_service_date; notes ];
  let user_id := default user_id (integer_affinity (param values 1)) in
  if bool_decide (user_id ∈ Users.id <$> users db)
  then
    let rowid := new_rowid (vehicles_seq db) (Vehicles.id <$> vehicles db) in
    mret (rowid,
          {| users := users db;
             users_seq := users_seq db;
             vehicles := vehicles db ++
               [ {| Vehicles.id := rowid; Vehicles.user_id := user_id;
                    Vehicles.owner_name := text_affinity (param values 2);
                    Vehicles.phone := text_affinity (param values 3);
                    Vehicles.vehicle_number := text_affinity (param values 4);
                    Vehicles.make := text_affinity (param values 5);
                    Vehicles.model := text_affinity (param values 6);
                    Vehicles.last_service_date :=
                      text_affinity (param values 7);
                    Vehicles.next_service_date :=
                      text_affinity (param values 8);
                    Vehicles.notes := text_affinity (param values 9) |} ];
             vehicles_seq := rowid |})
  else throw "FOREIGN KEY constraint failed".

(** [WHERE id = ? AND user_id = ?], with the route parameter (a string)
    bound to the first [?]. *)
Definition where_id_and_user_id (id : string) (user_id : Z)
    (r : Vehicles.row) : Prop :=
  text_to_integer id = Some (Vehicles.id r) ∧ Vehicles.user_id r = user_id.

#[local] Instance where_id_and_user_id_dec id user_id r :
  Decision (where_id_and_user_id id user_id r).
Proof. unfold where_id_and_user_id. apply _. Defined.

(** The same test on the values of the two [?]. *)
Definition where_bound (id user_id : SqlValue) (r : Vehicles.row) : Prop :=
  integer_affinity id = Some (Vehicles.id r) ∧
  integer_affinity user_id = Some (Vehicles.user_id r).

#[local] Instance where_bound_dec id user_id r :
  Decision (where_bound id user_id r).
Proof. unfold where_bound. apply _. Defined.

(** [UPDATE vehicles SET owner_name = ?, ..., notes = ?
     WHERE id = ? AND user_id = ?], run with the eight fields of the body,
    the route parameter and the account id of the session. *)
Definition vehicles_update
    (owner_name phone vehicle_number make model
     last_service_date next_service_date notes : option JsValue)
    (id : string) (user_id : Z) (db : Db) : Throws Db :=
  values ← bind_parameters 10
    [ owner_name; phone; vehicle_number; make; model;
      last_service_date; next_service_date; notes;
      Some (JsString id); Some (JsNumber user_id) ];
  mret {| users := users db;
          users_seq := users_seq db;
          vehicles :=
            (λ r, if decide (where_bound (param values 9) (param values 10) r)
                  then {| Vehicles.id := Vehicles.id r;
                          Vehicles.user_id := Vehicles.user_id r;
                          Vehicles.owner_name := text_affinity (param values 1);
                          Vehicles.phone := text_affinity (param values 2);
                          Vehicles.vehicle_number :=
                            text_affinity (param values 3);
                          Vehicles.make := text_affinity (param values 4);
                          Vehicles.model := text_affinity (param values 5);
                          Vehicles.last_service_date :=
                            text_affinity (param values 6);
                          Vehicles.next_service_date :=
                            text_affinity (param values 7);
                          Vehicles.notes := text_affinity (param values 8) |}
                  else r) <$> vehicles db;
          vehicles_seq := vehicles_seq db |}.

(** [DELETE FROM vehicles WHERE id = ? AND user_id = ?], run with the route
    parameter and the account id of the session, a string and a number:
    each is the value of its own [?]. *)
Definition vehicles_delete (id : string) (user_id : Z) (db : Db) : Db :=
  {| users := users db;
     users_seq := users_seq db;
     vehicles := filter (λ r, ¬ where_id_and_user_id id user_id r) (vehicles db);
     vehicles_seq := vehicles_seq db |}.

(** *** bcryptjs on the values a body can hold *)

(** [bcrypt.hash(s, 10)]: rejects unless [s] is a string. *)
Definition bcrypt_hash_js (s : option JsValue) (rounds : Z) (salt : string)
    : Throws string :=
  match s with
  | Some (JsString pw) => mret (bcrypt_hash pw rounds salt)
  | _ => throw ("Illegal arguments: " +:+ typeof s +:+ ", number")
  end.

(** [bcrypt.compare(s, hash)]: rejects unless both are strings. *)
Definition bcrypt_compare_js (s : option JsValue) (hash : SqlText)
    : Throws bool :=
  match s, hash with
  | Some (JsString pw), Some h => mret (bcrypt_compare pw h)
  | _, _ =>
      throw ("Illegal arguments: " +:+ typeof s +:+ ", " +:+
             typeof (Some (js_of_text hash)))
  end.

(** *** Auth routes *)

(** A route handler: reads and writes the database, sends one response. *)
Definition Handler : Type := Db → Response * Db.

Definition res_json (code : Z) (b : ResBody) : Response :=
  {| status := code; json := b |}.

(** [POST /api/auth/signup]. *)
Definition signup (body : JsObject) (salt : string) : Handler := λ db,
  let email := body !! "email" in
  let password := body !! "password" in
  let garageName := body !! "garageName" in
  let try : Throws (Response * Db) :=
    hashedPassword ← bcrypt_hash_js password 10 salt;
    '(lastInsertRowid, db') ←
      users_insert email (Some (JsString hashedPassword)) garageName db;
    let token :=
      jwt_sign {| userId := lastInsertRowid; claim_email := email;
                  claim_garageName := garageName |} JWT_SECRET in
    mret (res_json 200 (AuthBody token email garageName), db') in
  match try with
  | inr done => done
  | inl error =>
      if includes (message error) "UNIQUE constraint failed"
      then (res_json 400 (ErrorBody "Email already exists"), db)
      else (res_json 500 (ErrorBody "Internal server error"), db)
  end.

(** [POST /api/auth/login]. *)
Definition login (body : JsObject) : Handler := λ db,
  let email := body !! "email" in
  let password := body !! "password" in
  let try : Throws Response :=
    user ← users_get_by_email email db;
    match user with
    | None => mret (res_json 401 (ErrorBody "Invalid credentials"))
    | Some user =>
        matches ← bcrypt_compare_js password (Users.password user);
        if negb matches
        then mret (res_json 401 (ErrorBody "Invalid credentials"))
        else
          let user_email := Some (js_of_text (Users.email user)) in
          let user_garage_name := Some (js_of_text (Users.garage_name user)) in
          let token :=
            jwt_sign {| userId := Users.id user; claim_email := user_email;
                        claim_garageName := user_garage_name |} JWT_SECRET in
          mret (res_json 200 (AuthBody token user_email user_garage_name))
    end in
  match try with
  | inr res => (res, db)
  | inl _ => (res_json 500 (ErrorBody "Internal server error"), db)
  end.

(** *** Middleware *)

(** [req.headers.authorization?.split(" ")[1]]. *)
Definition bearer_token (authorization : option string) : option string :=
  header ← authorization; split_space header !! 1%nat.

(** [authenticate]: answers 401 itself, or sets [req.user] and calls
    [next]. *)
Definition authenticate (authorization : option string)
    (next : Claim → Handler) : Handler := λ db,
  match bearer_token authorization with
  | None | Some EmptyString => (res_json 401 (ErrorBody "Unauthorized"), db)
  | Some token =>
      match jwt_verify token JWT_SECRET with
      | Some decoded => next decoded db
      | None => (res_json 401 (ErrorBody "Invalid token"), db)
      end
  end.

(** *** Vehicle routes, past the middleware *)

(** An exception thrown inside a route handler is caught by Express around
    that handler, before it could reach the [catch] of [authenticate]; Express
    answers 500.  The statement that threw changed nothing. *)
Definition uncaught (e : Exception) (db : Db) : Response * Db :=
  (res_json 500 (UncaughtBody e), db).

(** [GET /api/vehicles]. *)
Definition get_vehicles (user : Claim) : Handler := λ db,
  (res_json 200 (VehiclesBody (vehicles_select (userId user) db)), db).

(** [POST /api/vehicles]; the response is [{ id: lastInsertRowid,
    ...req.body }], where the keys of the body win over [id]. *)
Definition post_vehicles (user : Claim) (body : JsObject) : Handler := λ db,
  match vehicles_insert (userId user)
          (body !! "owner_name") (body !! "phone")
          (body !! "vehicle_number") (body !! "make") (body !! "model")
          (body !! "last_service_date") (body !! "next_service_date")
          (body !! "notes") db with
  | inr (lastInsertRowid, db') =>
      (res_json 200 (ObjectBody (body ∪ {[ "id" := JsNumber lastInsertRowid ]})),
       db')
  | inl e => uncaught e db
  end.

(** [PUT /api/vehicles/:id]. *)
Definition put_vehicle (user : Claim) (id : string) (body : JsObject)
    : Handler := λ db,
  match vehicles_update
          (body !! "owner_name") (body !! "phone")
          (body !! "vehicle_number") (body !! "make") (body !! "model")
          (body !! "last_service_date") (body !! "next_service_date")
          (body !! "notes") id (userId user) db with
  | inr db' => (res_json 200 SuccessBody, db')
  | inl e => uncaught e db
  end.

(** [DELETE /api/vehicles/:id]. *)
Definition delete_vehicle (user : Claim) (id : string) : Handler := λ db,
  (res_json 200 SuccessBody, vehicles_delete id (userId user) db).

(** *** The application *)

(** The routes [startServer] registers. *)
Definition app (req : Request) : Handler :=
  match req with
  | PostSignup body salt => signup body salt
  | PostLogin body => login body
  | GetVehicles auth => authenticate auth get_vehicles
  | PostVehicles auth body =>
      authenticate auth (λ user, post_vehicles user body)
  | PutVehicle auth id body =>
      authenticate auth (λ user, put_vehicle user id body)
  | DeleteVehicle auth id =>
      authenticate auth (λ user, delete_vehicle user id)
  end.

(** The database after a sequence of requests. *)
Definition run (reqs : list Request) (db : Db) : Db :=
  foldl (λ db req, (app req db).2) db reqs.

(** A request carries no usable credential: no [Authorization] header, no
    second piece in it, an empty one, or a token [jwt.verify] refuses. *)
Definition unauthenticated (authorization : option string) : Prop :=
  match bearer_token authorization with
  | None => True
  | Some token => token = EmptyString ∨ jwt_verify token JWT_SECRET = None
  end.

(** A request carries the session of [user]: the second piece of its
    [Authorization] header is a token that [jwt.verify] accepts under the
    server's secret and decodes to [user]. *)
Definition session (authorization : option string) (user : Claim) : Prop :=
  ∃ token, bearer_token authorization = Some token ∧ token ≠ EmptyString ∧
           jwt_verify token JWT_SECRET = Some user.

(** The [Authorization] header of a request to a vehicle route. *)
Definition vehicle_route (req : Request) : option (option string) :=
  match req with
  | PostSignup _ _ | PostLogin _ => None
  | GetVehicles auth | PostVehicles auth _
  | PutVehicle auth _ _ | DeleteVehicle auth _ => Some auth
  end.

(** ** Properties *)

(** *** Body lookups and binding *)

Lemma bind_next_inr n bound v bound' :
  bind_next n bound v = inr bound' →
  (length bound < n)%nat ∧ ∃ value, bind_value v = Some value ∧
                                    bound' = bound ++ [value].
Proof.
  unfold bind_next. destruct (bind_value v) as [value|]; [| done].
  destruct (Nat.ltb_spec (length bound) n); [| done].
  intros [= <-]. eauto.
Qed.

Lemma bind_array_inr n bound elems bound' :
  bind_array n bound elems = inr bound' →
  (length bound ≤ n)%nat →
  (length bound' ≤ n)%nat ∧ ∃ more, bound' = bound ++ more.
Proof.
  revert bound. induction elems as [|v elems IH]; intros bound; simpl.
  { intros [= <-] Hle. split; [done |]. exists []. by rewrite app_nil_r. }
  unfold mbind, Throws_bind.
  destruct (bind_next n bound (Some v)) as [e | bound1] eqn:Hnext; [done |].
  apply bind_next_inr in Hnext as (Hlt & value & _ & ->).
  intros Hrest _. apply IH in Hrest as (Hle & more & ->).
  - split; [done |]. exists (value :: more). by rewrite <- app_assoc.
  - rewrite length_app. simpl. lia.
Qed.

(** A successful binding leaves exactly one value for each parameter. *)
Lemma bind_arguments_inr n bound bound_object args values :
  bind_arguments n bound bound_object args = inr values →
  (length bound ≤ n)%nat →
  length values = n ∧ ∃ more, values = bound ++ more.
Proof.
  revert bound bound_object.
  induction args as [|arg args IH]; intros bound bound_object; simpl.
  { destruct (Nat.ltb_spec (length bound) n); [done |].
    intros [= <-] Hle. split; [lia |]. exists []. by rewrite app_nil_r. }
  assert (∀ v, (bound1 ← bind_next n bound v;
                bind_arguments n bound1 bound_object args) = inr values →
               (length bound ≤ n)%nat →
               length values = n ∧ ∃ more, values = bound ++ more) as Hone.
  { intros v. unfold mbind, Throws_bind.
    destruct (bind_next n bound v) as [e | bound1] eqn:Hnext; [done |].
    apply bind_next_inr in Hnext as (Hlt & value & _ & ->).
    intros Hrest _. apply IH in Hrest as (Hlen & more & ->).
    - split; [done |]. exists (value :: more). by rewrite <- app_assoc.
    - rewrite length_app. simpl. lia. }
  destruct arg as [[| | | |elems|]|]; try apply Hone.
  - unfold mbind, Throws_bind.
    destruct (bind_array n bound elems) as [e | bound1] eqn:Harr; [done |].
    intros Hrest Hle.
    apply bind_array_inr in Harr as (Hle1 & more1 & ->); [| done].
    apply IH in Hrest as (Hlen & more & ->); [| done].
    split; [done |]. exists (more1 ++ more). by rewrite <- app_assoc.
  - destruct bound_object; [done |]. apply IH.
Qed.

Lemma bind_parameters_length n args values :
  bind_parameters n args = inr values → length values = n.
Proof.
  intros Hbind. apply bind_arguments_inr in Hbind as [Hlen _]; [done |].
  simpl. lia.
Qed.

(** Arguments that are neither arrays nor objects each take one parameter. *)
Lemma bind_arguments_scalars n bound bound_object args xs :
  Forall2 (λ v x, bind_value v = Some x) args xs →
  (length bound + length xs = n)%nat →
  bind_arguments n bound bound_object args = inr (bound ++ xs).
Proof.
  intros Hall. revert bound.
  induction Hall as [|v x args xs Hv Hall IH]; intros bound Hlen; simpl in *.
  { destruct (Nat.ltb_spec (length bound) n); [lia |]. by rewrite app_nil_r. }
  assert ((bound1 ← bind_next n bound v;
           bind_arguments n bound1 bound_object args)
          = inr (bound ++ x :: xs)) as Hone.
  { unfold bind_next. rewrite Hv.
    destruct (Nat.ltb_spec (length bound) n); [| lia]. simpl.
    rewrite (IH (bound ++ [x])); [by rewrite <- app_assoc |].
    rewrite length_app. simpl. lia. }
  destruct v as [[| | | |elems|]|]; try exact Hone; discriminate Hv.
Qed.

(** A first argument that is a number is the value of the first [?]. *)
Lemma bind_parameters_first n (u : Z) args values :
  bind_parameters n (Some (JsNumber u) :: args) = inr values →
  param values 1 = SqlREAL u.
Proof.
  unfold bind_parameters. simpl. unfold mbind, Throws_bind.
  destruct (bind_next n [] (Some (JsNumber u))) as [e | bound1] eqn:Hnext;
    [done |].
  apply bind_next_inr in Hnext as (Hlt & value & [= <-] & ->).
  intros Hrest. apply bind_arguments_inr in Hrest as (_ & more & ->); [done |].
  simpl in *. lia.
Qed.

(** Two last arguments that are a string and a number are the values of the
    last two [?]. *)
Lemma bind_arguments_last_two n bound bound_object args (id : string) (u : Z)
    values :
  bind_arguments n bound bound_object
    (args ++ [Some (JsString id); Some (JsNumber u)]) = inr values →
  ∃ front, values = front ++ [SqlTEXT id; SqlREAL u].
Proof.
  revert bound bound_object.
  induction args as [|arg args IH]; intros bound bound_object.
  { simpl. unfold mbind, Throws_bind, bind_next. simpl.
    destruct (length bound <? n)%nat; [| done]. simpl.
    destruct (length (bound ++ [SqlTEXT id]) <? n)%nat; [| done]. simpl.
    destruct (length ((bound ++ [SqlTEXT id]) ++ [SqlREAL u]) <? n)%nat;
      [done |].
    intros [= <-]. exists bound. by rewrite <- app_assoc. }
  rewrite <- app_comm_cons. simpl.
  assert (∀ v, (bound1 ← bind_next n bound v;
                bind_arguments n bound1 bound_object
                  (args ++ [Some (JsString id); Some (JsNumber u)]))
               = inr values →
               ∃ front, values = front ++ [SqlTEXT id; SqlREAL u]) as Hone.
  { intros v. unfold mbind, Throws_bind.
    destruct (bind_next n bound v) as [e | bound1]; [done |]. apply IH. }
  destruct arg as [[| | | |elems|]|]; try apply Hone.
  - unfold mbind, Throws_bind.
    destruct (bind_array n bound elems) as [e | bound1]; [done |]. apply IH.
  - destruct bound_object; [done |]. apply IH.
Qed.

Lemma param_last_two (front : list SqlValue) (x y : SqlValue) (n : nat) :
  length (front ++ [x; y]) = S (S n) →
  param (front ++ [x; y]) (S n) = x ∧ param (front ++ [x; y]) (S (S n)) = y.
Proof.
  rewrite length_app. simpl. intros Hlen.
  assert (length front = n) as <- by lia.
  unfold param. simpl. rewrite Nat.sub_0_r.
  rewrite !app_nth2 by lia.
  replace (length front - length front)%nat with 0%nat by lia.
  replace (S (length front) - length front)%nat with 1%nat by lia.
  done.
Qed.

Lemma vehicle_form_fields (f : VehicleForm.t) :
  let body := VehicleForm.to_json f in
  body !! "owner_name" = Some (JsString (VehicleForm.owner_name f)) ∧
  body !! "phone" = Some (JsString (VehicleForm.phone f)) ∧
  body !! "vehicle_number" = Some (JsString (VehicleForm.vehicle_number f)) ∧
  body !! "make" = Some (JsString (VehicleForm.make f)) ∧
  body !! "model" = Some (JsString (VehicleForm.model f)) ∧
  body !! "last_service_date" = Some (JsString (VehicleForm.last_service_date f)) ∧
  body !! "next_service_date" = Some (JsString (VehicleForm.next_service_date f)) ∧
  body !! "notes" = Some (JsString (VehicleForm.notes f)) ∧
  body !! "id" = None.
Proof. repeat split; reflexivity. Qed.

Lemma auth_form_fields (f : AuthForm.t) :
  let body := AuthForm.to_json f in
  body !! "email" = Some (JsString (AuthForm.email f)) ∧
  body !! "password" = Some (JsString (AuthForm.password f)) ∧
  body !! "garageName" = Some (JsString (AuthForm.garageName f)).
Proof. repeat split; reflexivity. Qed.

(** *** What the statements do to the tables *)

Ltac bind_cases :=
  unfold mbind, Throws_bind;
  match goal with
  | |- context [bind_parameters ?n ?args] =>
      let Hbind := fresh "Hbind" in
      let values := fresh "values" in
      destruct (bind_parameters n args) as [? | values] eqn:Hbind;
      [intros; discriminate |]
  end.

Lemma vehicles_insert_inr user_id o p v mk md l n nt db rowid db' :
  vehicles_insert user_id o p v mk md l n nt db = inr (rowid, db') →
  rowid = new_rowid (vehicles_seq db) (Vehicles.id <$> vehicles db) ∧
  users db' = users db ∧ users_seq db' = users_seq db ∧
  vehicles_seq db' = rowid ∧
  ∃ r, vehicles db' = vehicles db ++ [r] ∧
       Vehicles.id r = rowid ∧ Vehicles.user_id r = user_id.
Proof.
  unfold vehicles_insert. bind_cases.
  rewrite (bind_parameters_first _ _ _ _ Hbind). simpl.
  case_bool_decide; [| intros; discriminate].
  intros [= <- <-]; simpl. repeat split; eauto.
Qed.

(** A row is inserted only under an account that exists. *)
Lemma vehicles_insert_account user_id o p v mk md l n nt db rowid db' :
  vehicles_insert user_id o p v mk md l n nt db = inr (rowid, db') →
  user_id ∈ Users.id <$> users db.
Proof.
  unfold vehicles_insert. bind_cases.
  rewrite (bind_parameters_first _ _ _ _ Hbind). simpl.
  by case_bool_decide.
Qed.

(** In an update the last two [?] hold the route parameter and the account
    id, whatever the fields before them spread to. *)
Lemma vehicles_update_where o p v mk md l n nt (id : string) (user_id : Z)
    values :
  bind_parameters 10
    [ o; p; v; mk; md; l; n; nt; Some (JsString id); Some (JsNumber user_id) ]
  = inr values →
  param values 9 = SqlTEXT id ∧ param values 10 = SqlREAL user_id.
Proof.
  intros Hbind. pose proof (bind_parameters_length _ _ _ Hbind) as Hlen.
  apply (bind_arguments_last_two 10 [] false [o; p; v; mk; md; l; n; nt])
    in Hbind as [front ->].
  by apply param_last_two.
Qed.

Lemma vehicles_update_inr o p v mk md l n nt id user_id db db' :
  vehicles_update o p v mk md l n nt id user_id db = inr db' →
  users db' = users db ∧ users_seq db' = users_seq db ∧
  vehicles_seq db' = vehicles_seq db ∧
  ∃ set : Vehicles.row → Vehicles.row,
    (∀ r, Vehicles.id (set r) = Vehicles.id r ∧
          Vehicles.user_id (set r) = Vehicles.user_id r) ∧
    vehicles db' =
      (λ r, if decide (where_id_and_user_id id user_id r) then set r else r)
        <$> vehicles db.
Proof.
  unfold vehicles_update. bind_cases.
  destruct (vehicles_update_where _ _ _ _ _ _ _ _ _ _ _ Hbind) as [-> ->].
  intros [= <-]; simpl. repeat split; eauto.
  eexists (λ r, {| Vehicles.id := Vehicles.id r;
                   Vehicles.user_id := Vehicles.user_id r |}).
  split; [done |]. apply list_fmap_ext. intros _ r _. simpl.
  apply decide_ext. unfold where_bound, where_id_and_user_id. simpl.
  split; intros [? ?]; split; congruence.
Qed.

Lemma new_rowid_fresh seq (ids : list Z) i : i ∈ ids → i < new_rowid seq ids.
Proof.
  unfold new_rowid. induction 1; simpl; lia.
Qed.

(** Rows of another account pass through a guarded rewrite untouched. *)
Lemma filter_owned_update (a : Z) id user_id
    (set : Vehicles.row → Vehicles.row) (rows : list Vehicles.row) :
  a ≠ user_id →
  (∀ r, Vehicles.user_id (set r) = Vehicles.user_id r) →
  filter (owned_by a)
    ((λ r, if decide (where_id_and_user_id id user_id r) then set r else r)
       <$> rows)
  = filter (owned_by a) rows.
Proof.
  intros Hne Hset. induction rows as [|r rows IH]; [done |]. csimpl.
  destruct (decide (where_id_and_user_id id user_id r)) as [[_ Hu] | _].
  - rewrite !filter_cons_False; [done | |]; unfold owned_by;
      rewrite ?Hset; congruence.
  - rewrite !filter_cons, IH. done.
Qed.

(** ... and through a guarded delete. *)
Lemma filter_owned_delete (a : Z) id user_id (rows : list Vehicles.row) :
  a ≠ user_id →
  filter (owned_by a)
    (filter (λ r, ¬ where_id_and_user_id id user_id r) rows)
  = filter (owned_by a) rows.
Proof.
  intros Hne. induction rows as [|r rows IH]; [done |].
  destruct (decide (where_id_and_user_id id user_id r)) as [Hw | Hw].
  - rewrite (filter_cons_False _ r) by (intros Hn; apply Hn, Hw).
    destruct Hw as [_ Hu].
    rewrite (filter_cons_False (owned_by a) r) by (unfold owned_by; congruence).
    done.
  - rewrite (filter_cons_True _ r) by done.
    rewrite !(filter_cons (owned_by a)), IH. done.
Qed.

Lemma vehicles_select_owned (a : Z) (db : Db) (r : Vehicles.row) :
  r ∈ vehicles_select a db ↔ r ∈ vehicles db ∧ Vehicles.user_id r = a.
Proof.
  unfold vehicles_select. rewrite merge_sort_Permutation.
  rewrite list_elem_of_filter. unfold owned_by.
  split; intros [? ?]; by split.
Qed.

(** What a create, an update and a delete leave of the rows of an account
    other than the caller's. *)
Lemma post_vehicles_other (user : Claim) (a : Z) body db :
  a ≠ userId user →
  filter (owned_by a) (vehicles (post_vehicles user body db).2)
  = filter (owned_by a) (vehicles db).
Proof.
  intros Hne. unfold post_vehicles.
  destruct (vehicles_insert _ _ _ _ _ _ _ _ _ _) as [e | [rowid db']] eqn:Hins;
    [done |].
  apply vehicles_insert_inr in Hins as (_ & _ & _ & _ & r & Hv & _ & Hu).
  simpl. rewrite Hv, filter_app, filter_cons_False, filter_nil, app_nil_r;
    [done | unfold owned_by; congruence].
Qed.

Lemma put_vehicle_other (user : Claim) (a : Z) id body db :
  a ≠ userId user →
  filter (owned_by a) (vehicles (put_vehicle user id body db).2)
  = filter (owned_by a) (vehicles db).
Proof.
  intros Hne. unfold put_vehicle.
  destruct (vehicles_update _ _ _ _ _ _ _ _ _ _ _) as [e | db'] eqn:Hupd;
    [done |].
  apply vehicles_update_inr in Hupd as (_ & _ & _ & set & Hset & Hv).
  simpl. rewrite Hv. apply filter_owned_update; [done | apply Hset].
Qed.

Lemma delete_vehicle_other (user : Claim) (a : Z) id db :
  a ≠ userId user →
  filter (owned_by a) (vehicles (delete_vehicle user id db).2)
  = filter (owned_by a) (vehicles db).
Proof. intros Hne. simpl. by apply filter_owned_delete. Qed.

(** The handlers against each other, for the claims of two distinct
    accounts. *)
Lemma handlers_isolated (A B : Claim) (db : Db) :
  userId A ≠ userId B →
  (∀ r, r ∈ vehicles_select (userId B) db → Vehicles.user_id r ≠ userId A) ∧
  (∀ body,
     let db' := (post_vehicles A body db).2 in
     (get_vehicles B db').1 = (get_vehicles B db).1 ∧
     ∀ r, r ∈ vehicles db' → Vehicles.user_id r = userId A →
          r ∉ vehicles_select (userId B) db') ∧
  (∀ id body,
     let db' := (put_vehicle B id body db).2 in
     filter (owned_by (userId A)) (vehicles db')
     = filter (owned_by (userId A)) (vehicles db) ∧
     (get_vehicles A db').1 = (get_vehicles A db).1) ∧
  (∀ id,
     let db' := (delete_vehicle B id db).2 in
     filter (owned_by (userId A)) (vehicles db')
     = filter (owned_by (userId A)) (vehicles db) ∧
     (get_vehicles A db').1 = (get_vehicles A db).1).
Proof.
  intros Hne. split_and!.
  - intros r Hr%vehicles_select_owned. destruct Hr. congruence.
  - intros body db'. split.
    + unfold get_vehicles, vehicles_select; simpl. subst db'.
      rewrite post_vehicles_other by congruence. done.
    + intros r _ Hu Hr%vehicles_select_owned. destruct Hr. congruence.
  - intros id body db'. subst db'.
    pose proof (put_vehicle_other B (userId A) id body db Hne) as Heq.
    split; [done |].
    unfold get_vehicles, vehicles_select; simpl. by rewrite Heq.
  - intros id db'. subst db'.
    pose proof (delete_vehicle_other B (userId A) id db Hne) as Heq.
    split; [done |].
    unfold get_vehicles, vehicles_select; simpl. simpl in Heq. by rewrite Heq.
Qed.

(** Past the middleware the handler runs with the claim [jwt.verify]
    decoded, and with no other. *)
Lemma authenticate_session authorization (user : Claim)
    (next : Claim → Handler) (db : Db) :
  session authorization user →
  authenticate authorization next db = next user db.
Proof.
  intros (token & Hbearer & Hne & Hverify). unfold authenticate.
  rewrite Hbearer. destruct token as [|c token]; [done |]. by rewrite Hverify.
Qed.

Lemma post_vehicles_appends (user : Claim) body db :
  (post_vehicles user body db).2 = db ∨
  ∃ r, vehicles (post_vehicles user body db).2 = vehicles db ++ [r] ∧
       Vehicles.user_id r = userId user.
Proof.
  unfold post_vehicles.
  destruct (vehicles_insert _ _ _ _ _ _ _ _ _ _) as [e | [rowid db']] eqn:Hins;
    [by left |].
  apply vehicles_insert_inr in Hins as (_ & _ & _ & _ & r & Hv & _ & Hu).
  right. by exists r.
Qed.

(** C1.  Tenant isolation, through the routes.  Take two requests' headers
    whose tokens [jwt.verify] decodes, under the server's secret, to the
    claims [A] and [B] of two distinct accounts.  [GET /api/vehicles] under
    [B]'s header answers exactly the rows that carry [B]'s account id, so
    none of [A]'s.  A create under [A]'s header adds at most one row, owned
    by [A], and leaves what [B] is listed unchanged.  An update or a delete
    under [B]'s header, whatever record id and body it names, leaves every
    row of [A] as it was, so what [A] is listed is unchanged too.  The
    account id of each operation is that of the claim the middleware
    decoded from the token. *)
Theorem tenant_isolation
    (authA authB : option string) (A B : Claim) (db : Db) :
  session authA A → session authB B → userId A ≠ userId B →
  app (GetVehicles authB) db
  = (res_json 200 (VehiclesBody (vehicles_select (userId B) db)), db) ∧
  (∀ r, r ∈ vehicles_select (userId B) db
        ↔ r ∈ vehicles db ∧ Vehicles.user_id r = userId B) ∧
  (∀ r, r ∈ vehicles_select (userId B) db → Vehicles.user_id r ≠ userId A) ∧
  (∀ body,
     let db' := (app (PostVehicles authA body) db).2 in
     (db' = db ∨
      ∃ r, vehicles db' = vehicles db ++ [r] ∧ Vehicles.user_id r = userId A) ∧
     (app (GetVehicles authB) db').1 = (app (GetVehicles authB) db).1 ∧
     ∀ r, r ∈ vehicles db' → Vehicles.user_id r = userId A →
          r ∉ vehicles_select (userId B) db') ∧
  (∀ id body,
     let db' := (app (PutVehicle authB id body) db).2 in
     filter (owned_by (userId A)) (vehicles db')
     = filter (owned_by (userId A)) (vehicles db) ∧
     (app (GetVehicles authA) db').1 = (app (GetVehicles authA) db).1) ∧
  (∀ id,
     let db' := (app (DeleteVehicle authB id) db).2 in
     filter (owned_by (userId A)) (vehicles db')
     = filter (owned_by (userId A)) (vehicles db) ∧
     (app (GetVehicles authA) db').1 = (app (GetVehicles authA) db).1).
Proof.
  intros HA HB Hne.
  destruct (handlers_isolated A B db Hne) as (Hlist & Hpost & Hput & Hdel).
  simpl. split_and!.
  - by rewrite (authenticate_session authB B).
  - apply vehicles_select_owned.
  - exact Hlist.
  - intros body.
    rewrite (authenticate_session authA A) by done.
    rewrite !(authenticate_session authB B) by done.
    destruct (Hpost body) as [Hsame Hnot].
    split_and!; [apply post_vehicles_appends | done | done].
  - intros id body.
    rewrite (authenticate_session authB B) by done.
    rewrite !(authenticate_session authA A) by done.
    apply Hput.
  - intros id.
    rewrite (authenticate_session authB B) by done.
    rewrite !(authenticate_session authA A) by done.
    apply Hdel.
Qed.

(** *** Updates and deletes that match no row *)

Lemma db_eta (db : Db) :
  {| users := users db; users_seq := users_seq db;
     vehicles := vehicles db; vehicles_seq := vehicles_seq db |} = db.
Proof. by destruct db. Qed.

Lemma update_no_match id user_id (set : Vehicles.row → Vehicles.row)
    (rows : list Vehicles.row) :
  (∀ r, r ∈ rows → ¬ where_id_and_user_id id user_id r) →
  (λ r, if decide (where_id_and_user_id id user_id r) then set r else r)
    <$> rows = rows.
Proof.
  intros Hno. induction rows as [|r rows IH]; [done |]. csimpl.
  rewrite decide_False by (apply Hno; left).
  f_equal. apply IH. intros r' Hr'. apply Hno. by right.
Qed.

Lemma delete_no_match id user_id (rows : list Vehicles.row) :
  (∀ r, r ∈ rows → ¬ where_id_and_user_id id user_id r) →
  filter (λ r, ¬ where_id_and_user_id id user_id r) rows = rows.
Proof.
  intros Hno. induction rows as [|r rows IH]; [done |].
  rewrite filter_cons_True by (apply Hno; left).
  f_equal. apply IH. intros r' Hr'. apply Hno. by right.
Qed.

(** Whatever the body holds, an update that matches no row changes
    nothing. *)
Lemma put_vehicle_no_match (user : Claim) id (body : JsObject) db :
  (∀ r, r ∈ vehicles db → ¬ where_id_and_user_id id (userId user) r) →
  (put_vehicle user id body db).2 = db.
Proof.
  intros Hno. unfold put_vehicle.
  destruct (vehicles_update _ _ _ _ _ _ _ _ _ _ _) as [e | db'] eqn:Hupd;
    [done |].
  apply vehicles_update_inr in Hupd as (Hu & Hus & Hvs & set & _ & Hv).
  rewrite update_no_match in Hv by done. simpl.
  destruct db, db'; simpl in *; congruence.
Qed.

Lemma put_vehicle_form (user : Claim) id (f : VehicleForm.t) db :
  put_vehicle user id (VehicleForm.to_json f) db =
  (res_json 200 SuccessBody,
   {| users := users db; users_seq := users_seq db;
      vehicles :=
        (λ r, if decide (where_id_and_user_id id (userId user) r)
              then VehicleForm.to_row (Vehicles.id r) (Vehicles.user_id r) f
              else r) <$> vehicles db;
      vehicles_seq := vehicles_seq db |}).
Proof.
  transitivity
    (res_json 200 SuccessBody,
     {| users := users db; users_seq := users_seq db;
        vehicles :=
          (λ r, if decide (where_bound (SqlTEXT id) (SqlREAL (userId user)) r)
                then VehicleForm.to_row (Vehicles.id r) (Vehicles.user_id r) f
                else r) <$> vehicles db;
        vehicles_seq := vehicles_seq db |}); [reflexivity |].
  do 2 f_equal. apply list_fmap_ext. intros _ r _. simpl.
  apply decide_ext. unfold where_bound, where_id_and_user_id. simpl.
  split; intros [? ?]; split; congruence.
Qed.

(** C3.  A [PUT] (with the fields of a vehicle form) or a [DELETE] whose
    record id names no row of the caller -- the id matches no row at all,
    or only rows of other accounts -- leaves the database exactly as it
    was and still answers 200 [{ success: true }]. *)
Theorem noop_on_missing_or_foreign_id
    (user : Claim) (id : string) (f : VehicleForm.t) (db : Db) :
  (∀ r, r ∈ vehicles db → text_to_integer id = Some (Vehicles.id r) →
        Vehicles.user_id r ≠ userId user) →
  put_vehicle user id (VehicleForm.to_json f) db = (res_json 200 SuccessBody, db) ∧
  delete_vehicle user id db = (res_json 200 SuccessBody, db).
Proof.
  intros Hforeign.
  assert (∀ r, r ∈ vehicles db → ¬ where_id_and_user_id id (userId user) r)
    as Hno by (intros r Hr [Hid Hu]; by eapply Hforeign).
  split.
  - rewrite put_vehicle_form, update_no_match by done. by rewrite db_eta.
  - unfold delete_vehicle, vehicles_delete.
    rewrite delete_no_match by done. by rewrite db_eta.
Qed.

(** *** The middleware *)

(** C4.  A request to a vehicle route that carries no bearer token, or one
    that [jwt.verify] refuses under the server's secret, is answered 401 by
    the middleware with the database untouched; the answer is the same
    whatever handler stands behind the middleware, which is never run. *)
Theorem unauthenticated_rejected (authorization : option string) (db : Db) :
  unauthenticated authorization →
  ∃ error,
    (error = "Unauthorized" ∨ error = "Invalid token") ∧
    (∀ next, authenticate authorization next db
             = (res_json 401 (ErrorBody error), db)) ∧
    (∀ req, vehicle_route req = Some authorization →
            app req db = (res_json 401 (ErrorBody error), db)).
Proof.
  unfold unauthenticated. intros Hun.
  assert (∃ error, (error = "Unauthorized" ∨ error = "Invalid token") ∧
                   ∀ next, authenticate authorization next db
                           = (res_json 401 (ErrorBody error), db))
    as (error & Herror & Hauth).
  { unfold authenticate.
    destruct (bearer_token authorization) as [[|c token]|]; [by eauto | | by eauto].
    destruct Hun as [? | ->]; [done | by eauto]. }
  exists error. split_and!; [done | done |].
  intros [| | auth | auth body | auth id body | auth id]; simpl;
    intros [= ->]; apply Hauth.
Qed.

(** *** Signup *)

Lemma users_insert_inr email password garage_name db rowid db' :
  users_insert email password garage_name db = inr (rowid, db') →
  vehicles db' = vehicles db ∧ vehicles_seq db' = vehicles_seq db ∧
  ∃ u, users db' = users db ++ [u] ∧ Users.id u = rowid.
Proof.
  unfold users_insert, mbind, Throws_bind. bind_cases.
  case_bool_decide; [intros; discriminate |].
  intros [= <- <-]; simpl. eauto.
Qed.

(** A signup with the three strings of the auth form: refused when the
    email is already stored, one new row otherwise. *)
Lemma signup_form (f : AuthForm.t) (salt : string) (db : Db) :
  signup (AuthForm.to_json f) salt db =
  if decide (Some (AuthForm.email f) ∈ Users.email <$> users db)
  then (res_json 400 (ErrorBody "Email already exists"), db)
  else
    let rowid := new_rowid (users_seq db) (Users.id <$> users db) in
    let email := Some (JsString (AuthForm.email f)) in
    let garageName := Some (JsString (AuthForm.garageName f)) in
    (res_json 200
       (AuthBody
          (jwt_sign {| userId := rowid; claim_email := email;
                       claim_garageName := garageName |} JWT_SECRET)
          email garageName),
     {| users := users db ++
          [ {| Users.id := rowid;
               Users.email := Some (AuthForm.email f);
               Users.password :=
                 Some (bcrypt_hash (AuthForm.password f) 10 salt);
               Users.garage_name := Some (AuthForm.garageName f) |} ];
        users_seq := rowid;
        vehicles := vehicles db;
        vehicles_seq := vehicles_seq db |}).
Proof.
  unfold signup.
  destruct (auth_form_fields f) as (-> & -> & ->).
  unfold users_insert; simpl.
  case_bool_decide as Hdup; case_decide as Hin; try reflexivity.
  - destruct Hdup; contradiction.
  - destruct Hdup; eauto.
Qed.

(** The refusal is on the exact stored text. *)
Lemma signup_form_refused_iff (f : AuthForm.t) (salt : string) (db : Db) :
  (signup (AuthForm.to_json f) salt db).1
  = res_json 400 (ErrorBody "Email already exists")
  ↔ Some (AuthForm.email f) ∈ Users.email <$> users db.
Proof.
  rewrite signup_form. case_decide; simpl; [done |].
  split; [| done].
  intros Heq. apply (f_equal status) in Heq. discriminate Heq.
Qed.

Lemma signup_form_registers (f : AuthForm.t) (salt : string) (db : Db) :
  Some (AuthForm.email f)
    ∈ Users.email <$> users (signup (AuthForm.to_json f) salt db).2.
Proof.
  rewrite signup_form. case_decide; simpl; [done |].
  rewrite fmap_app. apply elem_of_app. right. simpl. left.
Qed.

(** C5.  Signing up twice with the same email: whatever the first call
    did, the second is answered 400 "Email already exists" and leaves the
    database, and so the accounts, exactly as the first call left them.
    The comparison is on the stored text as it is. *)
Theorem duplicate_email_signup
    (f1 f2 : AuthForm.t) (salt1 salt2 : string) (db : Db) :
  AuthForm.email f1 = AuthForm.email f2 →
  let db1 := (signup (AuthForm.to_json f1) salt1 db).2 in
  signup (AuthForm.to_json f2) salt2 db1
  = (res_json 400 (ErrorBody "Email already exists"), db1) ∧
  users (signup (AuthForm.to_json f2) salt2 db1).2 = users db1.
Proof.
  intros Hemail db1.
  assert (signup (AuthForm.to_json f2) salt2 db1
          = (res_json 400 (ErrorBody "Email already exists"), db1)) as ->.
  { rewrite signup_form, <- Hemail.
    rewrite decide_True by apply signup_form_registers. done. }
  done.
Qed.

(** *** Login *)

Lemma login_form (f : AuthForm.t) (db : Db) :
  login (AuthForm.to_json f) db =
  match List.find (λ u, bool_decide (Users.email u = Some (AuthForm.email f)))
          (users db) with
  | None => (res_json 401 (ErrorBody "Invalid credentials"), db)
  | Some user =>
      match Users.password user with
      | None => (res_json 500 (ErrorBody "Internal server error"), db)
      | Some hash =>
          if bcrypt_compare (AuthForm.password f) hash
          then
            let user_email := Some (js_of_text (Users.email user)) in
            let user_garage_name :=
              Some (js_of_text (Users.garage_name user)) in
            (res_json 200
               (AuthBody
                  (jwt_sign {| userId := Users.id user;
                               claim_email := user_email;
                               claim_garageName := user_garage_name |}
                     JWT_SECRET)
                  user_email user_garage_name), db)
          else (res_json 401 (ErrorBody "Invalid credentials"), db)
      end
  end.
Proof.
  unfold login.
  destruct (auth_form_fields f) as (-> & -> & _). simpl.
  destruct (List.find _ _) as [user|]; [| done]. simpl.
  destruct (Users.password user) as [hash|]; [| done]. simpl.
  by destruct (bcrypt_compare _ _).
Qed.



(** *** The accounts *)

Lemma authenticate_keeps {T} (get : Db → T) authorization
    (next : Claim → Handler) db :
  (∀ user, get (next user db).2 = get db) →
  get (authenticate authorization next db).2 = get db.
Proof.
  intros Hnext. unfold authenticate.
  destruct (bearer_token authorization) as [[|c token]|]; [done | | done].
  destruct (jwt_verify _ _); [apply Hnext | done].
Qed.

Lemma login_db body db : (login body db).2 = db.
Proof. unfold login. by destruct (_ ≫= _). Qed.

Lemma post_vehicles_users user body db :
  users (post_vehicles user body db).2 = users db.
Proof.
  unfold post_vehicles.
  destruct (vehicles_insert _ _ _ _ _ _ _ _ _ _) as [e | [rowid db']] eqn:Hins;
    [done |].
  by apply vehicles_insert_inr in Hins as (_ & ? & _).
Qed.

Lemma put_vehicle_users user id body db :
  users (put_vehicle user id body db).2 = users db.
Proof.
  unfold put_vehicle.
  destruct (vehicles_update _ _ _ _ _ _ _ _ _ _ _) as [e | db'] eqn:Hupd;
    [done |].
  by apply vehicles_update_inr in Hupd as (? & _).
Qed.

Lemma signup_users body salt db :
  users (signup body salt db).2 = users db ∨
  ∃ u, users (signup body salt db).2 = users db ++ [u].
Proof.
  unfold signup. destruct (bcrypt_hash_js _ _ _) as [e | hashed]; simpl.
  { left. by destruct (includes _ _). }
  destruct (users_insert _ _ _ _) as [e | [rowid db']] eqn:Hins; simpl.
  { left. by destruct (includes _ _). }
  apply users_insert_inr in Hins as (_ & _ & u & ? & _). eauto.
Qed.

(** C9.  No request changes or removes an account: after any request the
    [users] table is the table before it, row for row, except that a signup
    may have appended one new row behind the existing ones. *)
Theorem accounts_immutable (req : Request) (db : Db) :
  users (app req db).2 = users db ∨
  ∃ body salt u,
    req = PostSignup body salt ∧ users (app req db).2 = users db ++ [u].
Proof.
  destruct req as [body salt | body | auth | auth body | auth id body | auth id];
    simpl.
  - destruct (signup_users body salt db) as [? | [u ?]]; [by left |].
    right. by exists body, salt, u.
  - left. by rewrite login_db.
  - left. by apply (authenticate_keeps users).
  - left. apply (authenticate_keeps users). intros. apply post_vehicles_users.
  - left. apply (authenticate_keeps users). intros. apply put_vehicle_users.
  - left. by apply (authenticate_keeps users).
Qed.

(** *** Rowids grow along the table *)

Lemma empty_db_rowids_increasing : rowids_increasing empty_db.
Proof. constructor. Qed.

Lemma StronglySorted_filter {T} (R : relation T) (P : T → Prop)
    `{∀ x, Decision (P x)} (l : list T) :
  StronglySorted R l → StronglySorted R (filter P l).
Proof.
  induction 1 as [|x l Hl IH Hx]; [constructor |].
  rewrite filter_cons. destruct (decide (P x)); [| done].
  constructor; [done |].
  apply Forall_forall. intros y [_ Hy]%list_elem_of_filter.
  by eapply Forall_forall in Hx.
Qed.

Lemma post_vehicles_rowids_increasing user body db :
  rowids_increasing db → rowids_increasing (post_vehicles user body db).2.
Proof.
  unfold rowids_increasing, post_vehicles. intros Hok.
  destruct (vehicles_insert _ _ _ _ _ _ _ _ _ _) as [e | [rowid db']] eqn:Hins;
    [done |].
  apply vehicles_insert_inr in Hins as (-> & _ & _ & _ & r & Hv & Hid & _).
  simpl. rewrite Hv. apply StronglySorted_app_2; [| done | repeat constructor].
  intros r1 r2 Hr1 ->%list_elem_of_singleton. unfold id_lt. rewrite Hid.
  apply new_rowid_fresh. by apply list_elem_of_fmap_2.
Qed.

Lemma put_vehicle_rowids_increasing user id body db :
  rowids_increasing db → rowids_increasing (put_vehicle user id body db).2.
Proof.
  unfold rowids_increasing, put_vehicle. intros Hok.
  destruct (vehicles_update _ _ _ _ _ _ _ _ _ _ _) as [e | db'] eqn:Hupd;
    [done |].
  apply vehicles_update_inr in Hupd as (_ & _ & _ & set & Hset & Hv).
  simpl. rewrite Hv. eapply StronglySorted_fmap; [| done].
  intros r1 r2. unfold id_lt.
  repeat case_decide; rewrite ?(proj1 (Hset _)); done.
Qed.

Lemma delete_vehicle_rowids_increasing user id db :
  rowids_increasing db → rowids_increasing (delete_vehicle user id db).2.
Proof. unfold rowids_increasing. simpl. apply StronglySorted_filter. Qed.

Lemma signup_vehicles body salt db :
  vehicles (signup body salt db).2 = vehicles db.
Proof.
  unfold signup. destruct (bcrypt_hash_js _ _ _) as [e | hashed]; simpl.
  { by destruct (includes _ _). }
  destruct (users_insert _ _ _ _) as [e | [rowid db']] eqn:Hins; simpl.
  { by destruct (includes _ _). }
  by apply users_insert_inr in Hins as (? & _).
Qed.

(** Every request keeps the rowids growing along [vehicles]; they do so
    in the empty database, hence in every database the server reaches. *)
Lemma app_rowids_increasing (req : Request) (db : Db) :
  rowids_increasing db → rowids_increasing (app req db).2.
Proof.
  intros Hok.
  destruct req as [body salt | body | auth | auth body | auth id body | auth id];
    simpl.
  - unfold rowids_increasing. by rewrite signup_vehicles.
  - by rewrite login_db.
  - unfold authenticate.
    destruct (bearer_token auth) as [[|c token]|]; [done | | done].
    by destruct (jwt_verify _ _).
  - unfold authenticate.
    destruct (bearer_token auth) as [[|c token]|]; [done | | done].
    destruct (jwt_verify _ _); [| done].
    by apply post_vehicles_rowids_increasing.
  - unfold authenticate.
    destruct (bearer_token auth) as [[|c token]|]; [done | | done].
    destruct (jwt_verify _ _); [| done].
    by apply put_vehicle_rowids_increasing.
  - unfold authenticate.
    destruct (bearer_token auth) as [[|c token]|]; [done | | done].
    destruct (jwt_verify _ _); [| done].
    by apply delete_vehicle_rowids_increasing.
Qed.

Lemma run_rowids_increasing (reqs : list Request) (db : Db) :
  rowids_increasing db → rowids_increasing (run reqs db).
Proof.
  revert db. induction reqs as [|req reqs IH]; intros db Hok; [done |].
  simpl. by apply IH, app_rowids_increasing.
Qed.

Lemma reachable_rowids_increasing (reqs : list Request) :
  rowids_increasing (run reqs empty_db).
Proof. apply run_rowids_increasing, empty_db_rowids_increasing. Qed.

(** *** Listing *)

#[local] Instance id_desc_transitive : Transitive id_desc.
Proof. unfold id_desc. intros r1 r2 r3. lia. Qed.

#[local] Instance id_desc_total : Total id_desc.
Proof. unfold id_desc. intros r1 r2. lia. Qed.

Lemma StronglySorted_same_id (rows : list Vehicles.row) r1 r2 :
  StronglySorted id_lt rows → r1 ∈ rows → r2 ∈ rows →
  Vehicles.id r1 = Vehicles.id r2 → r1 = r2.
Proof.
  unfold id_lt.
  induction 1 as [|r rows Hrows IH Hr]; [by intros ?%elem_of_nil |].
  rewrite Forall_forall in Hr.
  intros [-> | H1]%elem_of_cons [-> | H2]%elem_of_cons Hid; auto.
  - apply Hr in H2. lia.
  - apply Hr in H1. lia.
Qed.

Lemma StronglySorted_reverse_desc (rows : list Vehicles.row) :
  StronglySorted id_lt rows → StronglySorted id_desc (reverse rows).
Proof.
  induction 1 as [|r rows Hrows IH Hr]; [constructor |].
  rewrite reverse_cons. apply StronglySorted_app_2; [| done | repeat constructor].
  intros r1 r2 Hr1 ->%list_elem_of_singleton. rewrite elem_of_reverse in Hr1.
  rewrite Forall_forall in Hr. apply Hr in Hr1. unfold id_lt, id_desc in *. lia.
Qed.

(** For rowids that grow along the table, ORDER BY id DESC is the caller's
    rows in the reverse of insertion order. *)
Lemma vehicles_select_reverse (user_id : Z) (db : Db) :
  rowids_increasing db →
  vehicles_select user_id db
  = reverse (filter (owned_by user_id) (vehicles db)).
Proof.
  unfold rowids_increasing, vehicles_select. intros Hok.
  pose proof (StronglySorted_filter id_lt (owned_by user_id) _ Hok) as Hf.
  apply (StronglySorted_unique_strong id_desc).
  - intros r1 r2 Hr1 Hr2 H12 H21.
    rewrite merge_sort_Permutation in Hr1. rewrite elem_of_reverse in Hr2.
    apply (StronglySorted_same_id _ r1 r2 Hf); [done | done |].
    unfold id_desc in *. lia.
  - apply StronglySorted_merge_sort; apply _.
  - by apply StronglySorted_reverse_desc.
  - by rewrite merge_sort_Permutation, reverse_Permutation.
Qed.

(** C8.  In a database whose rowids grow along the table (every database
    the server reaches), [GET /api/vehicles] answers with exactly the rows
    of the caller's account, the last inserted first: the caller's rows in
    the reverse of insertion order, by descending id.  The answer is
    computed from the database at hand, which is left as it is. *)
Theorem list_most_recent_first (user : Claim) (db : Db) :
  rowids_increasing db →
  get_vehicles user db
  = (res_json 200
       (VehiclesBody (reverse (filter (owned_by (userId user)) (vehicles db)))),
     db) ∧
  (∀ r, r ∈ vehicles_select (userId user) db
        ↔ r ∈ vehicles db ∧ Vehicles.user_id r = userId user) ∧
  StronglySorted (λ r1 r2, Vehicles.id r2 < Vehicles.id r1)
    (vehicles_select (userId user) db).
Proof.
  intros Hok. split_and!.
  - unfold get_vehicles. by rewrite vehicles_select_reverse.
  - apply vehicles_select_owned.
  - rewrite vehicles_select_reverse by done.
    pose proof (StronglySorted_filter id_lt (owned_by (userId user)) _ Hok) as Hf.
    revert Hf. generalize (filter (owned_by (userId user)) (vehicles db)).
    induction 1 as [|r rows Hrows IH Hr]; [constructor |].
    rewrite reverse_cons.
    apply StronglySorted_app_2; [| done | repeat constructor].
    intros r1 r2 Hr1 ->%list_elem_of_singleton. rewrite elem_of_reverse in Hr1.
    rewrite Forall_forall in Hr. by apply Hr.
Qed.

(** *** Creating *)

Lemma textual_bind (v : option JsValue) :
  textual v → ∃ x, bind_value v = Some x ∧ text_affinity x = text_of v.
Proof. destruct v as [[]|]; simpl; try done; eauto. Qed.

Lemma textual_reads_back (v : option JsValue) :
  textual v → js_of_text (text_of v) = default JsNull v.
Proof. by destruct v as [[]|]. Qed.

(** The INSERT on eight fields that are strings, [null] or left out: the
    foreign key decides. *)
Lemma vehicles_insert_textual user_id o p v mk md l n nt db :
  textual o → textual p → textual v → textual mk → textual md →
  textual l → textual n → textual nt →
  vehicles_insert user_id o p v mk md l n nt db =
  if bool_decide (user_id ∈ Users.id <$> users db)
  then
    let rowid := new_rowid (vehicles_seq db) (Vehicles.id <$> vehicles db) in
    inr (rowid,
         {| users := users db; users_seq := users_seq db;
            vehicles := vehicles db ++
              [ {| Vehicles.id := rowid; Vehicles.user_id := user_id;
                   Vehicles.owner_name := text_of o;
                   Vehicles.phone := text_of p;
                   Vehicles.vehicle_number := text_of v;
                   Vehicles.make := text_of mk;
                   Vehicles.model := text_of md;
                   Vehicles.last_service_date := text_of l;
                   Vehicles.next_service_date := text_of n;
                   Vehicles.notes := text_of nt |} ];
            vehicles_seq := rowid |})
  else throw "FOREIGN KEY constraint failed".
Proof.
  intros (xo & Ho & <-)%textual_bind (xp & Hp & <-)%textual_bind
         (xv & Hv & <-)%textual_bind (xmk & Hmk & <-)%textual_bind
         (xmd & Hmd & <-)%textual_bind (xl & Hl & <-)%textual_bind
         (xn & Hn & <-)%textual_bind (xnt & Hnt & <-)%textual_bind.
  unfold vehicles_insert, bind_parameters.
  by rewrite (bind_arguments_scalars 9 [] false _
                [SqlREAL user_id; xo; xp; xv; xmk; xmd; xl; xn; xnt])
    by (repeat constructor; done).
Qed.

Lemma post_vehicles_textual (user : Claim) (body : JsObject) (db : Db) :
  Forall (λ c, textual (body !! c.1)) vehicle_columns →
  userId user ∈ Users.id <$> users db →
  post_vehicles user body db =
  let rowid := new_rowid (vehicles_seq db) (Vehicles.id <$> vehicles db) in
  (res_json 200 (ObjectBody (body ∪ {[ "id" := JsNumber rowid ]})),
   {| users := users db; users_seq := users_seq db;
      vehicles := vehicles db ++
        [ {| Vehicles.id := rowid; Vehicles.user_id := userId user;
             Vehicles.owner_name := text_of (body !! "owner_name");
             Vehicles.phone := text_of (body !! "phone");
             Vehicles.vehicle_number := text_of (body !! "vehicle_number");
             Vehicles.make := text_of (body !! "make");
             Vehicles.model := text_of (body !! "model");
             Vehicles.last_service_date :=
               text_of (body !! "last_service_date");
             Vehicles.next_service_date :=
               text_of (body !! "next_service_date");
             Vehicles.notes := text_of (body !! "notes") |} ];
      vehicles_seq := rowid |}).
Proof.
  intros Hall Hfk. unfold vehicle_columns in Hall.
  repeat (apply Forall_cons in Hall as [? Hall]). simpl in *.
  unfold post_vehicles. rewrite vehicles_insert_textual by done.
  by rewrite bool_decide_eq_true_2.
Qed.

(** Without a row for the caller's account the INSERT is refused and
    Express answers 500. *)
Lemma post_vehicles_no_account (user : Claim) (body : JsObject) (db : Db) :
  Forall (λ c, textual (body !! c.1)) vehicle_columns →
  userId user ∉ Users.id <$> users db →
  post_vehicles user body db
  = uncaught {| message := "FOREIGN KEY constraint failed" |} db.
Proof.
  intros Hall Hfk. unfold vehicle_columns in Hall.
  repeat (apply Forall_cons in Hall as [? Hall]). simpl in *.
  unfold post_vehicles. rewrite vehicles_insert_textual by done.
  by rewrite bool_decide_eq_false_2.
Qed.

Lemma vehicle_form_textual (f : VehicleForm.t) :
  Forall (λ c, textual ((VehicleForm.to_json f) !! c.1)) vehicle_columns.
Proof. repeat (constructor; [exact I |]). constructor. Qed.

Lemma vehicle_form_with_id_textual (f : VehicleForm.t) (v : JsValue) :
  Forall (λ c, textual ((<["id" := v]> (VehicleForm.to_json f)) !! c.1))
    vehicle_columns.
Proof. repeat (constructor; [exact I |]). constructor. Qed.

Lemma post_vehicles_form (user : Claim) (f : VehicleForm.t) (db : Db) :
  userId user ∈ Users.id <$> users db →
  post_vehicles user (VehicleForm.to_json f) db =
  let rowid := new_rowid (vehicles_seq db) (Vehicles.id <$> vehicles db) in
  (res_json 200
     (ObjectBody (VehicleForm.to_json f ∪ {[ "id" := JsNumber rowid ]})),
   {| users := users db; users_seq := users_seq db;
      vehicles := vehicles db ++ [VehicleForm.to_row rowid (userId user) f];
      vehicles_seq := rowid |}).
Proof.
  intros Hfk.
  by rewrite post_vehicles_textual by (done || apply vehicle_form_textual).
Qed.

(** C7.  For a body whose eight fields are each a string, [null] or left
    out, sent under an account that exists, in a database the server
    reaches: the create answers the body plus the new id (an id larger than
    that of every row there was), and the list for the same account starts
    with one new row, under that id and the caller's account, each of whose
    columns holds the submitted string (NULL for [null] or a field left out)
    and so reads back as the submitted value; what the list was before
    follows. *)
Theorem create_list_roundtrip (user : Claim) (body : JsObject) (db : Db) :
  rowids_increasing db →
  userId user ∈ Users.id <$> users db →
  Forall (λ c, textual (body !! c.1)) vehicle_columns →
  let rowid := new_rowid (vehicles_seq db) (Vehicles.id <$> vehicles db) in
  let created := post_vehicles user body db in
  created.1
  = res_json 200 (ObjectBody (body ∪ {[ "id" := JsNumber rowid ]})) ∧
  (body !! "id" = None →
   created.1 = res_json 200 (ObjectBody (<["id" := JsNumber rowid]> body))) ∧
  (∀ r, r ∈ vehicles db → Vehicles.id r < rowid) ∧
  ∃ row,
    (get_vehicles user created.2).1
    = res_json 200 (VehiclesBody (row :: vehicles_select (userId user) db)) ∧
    Vehicles.id row = rowid ∧
    Vehicles.user_id row = userId user ∧
    Forall (λ c, c.2 row = text_of (body !! c.1) ∧
                 js_of_text (c.2 row) = default JsNull (body !! c.1))
      vehicle_columns.
Proof.
  intros Hok Hfk Hall rowid created.
  pose proof (post_vehicles_rowids_increasing user body db Hok) as Hok'.
  subst created. rewrite post_vehicles_textual in * by done. simpl in *.
  fold rowid in Hok' |- *. split_and!.
  - done.
  - intros Hid. do 2 f_equal. rewrite insert_union_singleton_r; [done |].
    apply Hid.
  - intros r Hr. apply new_rowid_fresh. by apply list_elem_of_fmap_2.
  - eexists. split.
    { unfold get_vehicles. simpl.
      rewrite !vehicles_select_reverse by done. simpl.
      rewrite filter_app, filter_cons_True, filter_nil by done.
      by rewrite reverse_snoc. }
    split; [reflexivity |]. split; [reflexivity |].
    + unfold vehicle_columns in *.
      repeat (apply Forall_cons in Hall as [? Hall]). simpl in *.
      repeat (constructor; [by (split; [| apply textual_reads_back]) |]).
      constructor.
Qed.

(** C10.  A create whose body carries an [id] key next to the fields of a
    vehicle form.  Sent under an account that exists: the response object
    is the body itself, so its [id] is the client's value, while the row
    that is stored carries the generated rowid; the two differ as soon as
    the client's value is not that number.  Sent under an account that has
    no row, the INSERT is refused and nothing is stored. *)
Theorem create_response_echoes_body_id
    (user : Claim) (f : VehicleForm.t) (v : JsValue) (db : Db) :
  let body := <["id" := v]> (VehicleForm.to_json f) in
  let rowid := new_rowid (vehicles_seq db) (Vehicles.id <$> vehicles db) in
  let created := post_vehicles user body db in
  (userId user ∈ Users.id <$> users db →
   created.1 = res_json 200 (ObjectBody body) ∧
   body !! "id" = Some v ∧
   vehicles created.2
   = vehicles db ++ [VehicleForm.to_row rowid (userId user) f] ∧
   (v ≠ JsNumber rowid →
    created.1
    ≠ (post_vehicles user (VehicleForm.to_json f) db).1)) ∧
  (userId user ∉ Users.id <$> users db →
   created = uncaught {| message := "FOREIGN KEY constraint failed" |} db).
Proof.
  intros body rowid created. split; intros Hfk; cycle 1.
  { subst created body.
    by rewrite post_vehicles_no_account
      by (done || apply vehicle_form_with_id_textual). }
  assert (post_vehicles user body db =
          (res_json 200 (ObjectBody (body ∪ {[ "id" := JsNumber rowid ]})),
           {| users := users db; users_seq := users_seq db;
              vehicles := vehicles db ++ [VehicleForm.to_row rowid (userId user) f];
              vehicles_seq := rowid |})) as Hpost.
  { subst body.
    by rewrite post_vehicles_textual
      by (done || apply vehicle_form_with_id_textual). }
  assert (body ∪ {[ "id" := JsNumber rowid ]} = body) as Hbody.
  { apply map_eq. intros k. subst body.
    destruct (decide (k = "id")) as [-> | Hk].
    - erewrite lookup_union_Some_l; [| apply lookup_insert_eq].
      by rewrite lookup_insert_eq.
    - rewrite lookup_union_l; [done |]. by rewrite lookup_singleton_ne. }
  subst created. rewrite Hpost, Hbody. simpl.
  split; [done |]. split; [subst body; apply lookup_insert_eq |].
  split; [done |].
  intros Hv. rewrite post_vehicles_form by done. unfold res_json. intros Heq.
  apply (f_equal (λ res, match json res with
                         | ObjectBody o => o !! "id"
                         | _ => None
                         end)) in Heq.
  subst body. cbv beta iota delta [json fst] in Heq.
  rewrite lookup_insert_eq in Heq.
  erewrite lookup_union_Some_r in Heq; [| | apply lookup_singleton_eq].
  - injection Heq as ->. by apply Hv.
  - apply map_disjoint_singleton_r. reflexivity.
Qed.

(** ** Further properties of the routes *)

(** *** Signup and login, for any body *)

Lemma bind_next_inl n bound v e :
  bind_next n bound v = inl e →
  includes (message e) "UNIQUE constraint failed" = false.
Proof.
  unfold bind_next. destruct (bind_value v); [| by intros [= <-]].
  destruct (length bound <? n)%nat; [done | by intros [= <-]].
Qed.

Lemma bind_array_inl n bound elems e :
  bind_array n bound elems = inl e →
  includes (message e) "UNIQUE constraint failed" = false.
Proof.
  revert bound. induction elems as [|v elems IH]; intros bound; [done |].
  simpl. unfold mbind, Throws_bind.
  destruct (bind_next n bound (Some v)) as [e' | bound1] eqn:Hnext.
  - intros [= <-]. by eapply bind_next_inl.
  - apply IH.
Qed.

(** The binder's exceptions are none of SQLite's constraint failures. *)
Lemma bind_arguments_inl n bound bound_object args e :
  bind_arguments n bound bound_object args = inl e →
  includes (message e) "UNIQUE constraint failed" = false.
Proof.
  revert bound bound_object.
  induction args as [|arg args IH]; intros bound bound_object; simpl.
  { destruct (length bound <? n)%nat; [by intros [= <-] | done]. }
  assert (∀ v, (bound1 ← bind_next n bound v;
                bind_arguments n bound1 bound_object args) = inl e →
               includes (message e) "UNIQUE constraint failed" = false)
    as Hone.
  { intros v. unfold mbind, Throws_bind.
    destruct (bind_next n bound v) as [e' | bound1] eqn:Hnext.
    - intros [= <-]. by eapply bind_next_inl.
    - apply IH. }
  destruct arg as [[| | | |elems|]|]; try apply Hone.
  - unfold mbind, Throws_bind.
    destruct (bind_array n bound elems) as [e' | bound1] eqn:Harr.
    + intros [= <-]. by eapply bind_array_inl.
    + apply IH.
  - destruct bound_object; [by intros [= <-] | apply IH].
Qed.

Lemma users_insert_cases email password garage_name db :
  match users_insert email password garage_name db with
  | inr (rowid, db') =>
      ∃ values,
        bind_parameters 3 [email; password; garage_name] = inr values ∧
        ¬ (is_Some (text_affinity (param values 1)) ∧
           text_affinity (param values 1) ∈ Users.email <$> users db) ∧
        rowid = new_rowid (users_seq db) (Users.id <$> users db) ∧
        db' = {| users := users db ++
                   [ {| Users.id := rowid;
                        Users.email := text_affinity (param values 1);
                        Users.password := text_affinity (param values 2);
                        Users.garage_name := text_affinity (param values 3) |} ];
                 users_seq := rowid;
                 vehicles := vehicles db;
                 vehicles_seq := vehicles_seq db |}
  | inl err =>
      (message err = "UNIQUE constraint failed: users.email" ∧
       ∃ values e,
         bind_parameters 3 [email; password; garage_name] = inr values ∧
         text_affinity (param values 1) = Some e ∧
         Some e ∈ Users.email <$> users db)
      ∨ (bind_parameters 3 [email; password; garage_name] = inl err ∧
         includes (message err) "UNIQUE constraint failed" = false)
  end.
Proof.
  unfold users_insert, mbind, Throws_bind.
  destruct (bind_parameters 3 [email; password; garage_name])
    as [err | values] eqn:Hbind.
  { right. split; [done |]. by eapply bind_arguments_inl. }
  case_bool_decide as Hdup; simpl.
  - left. split; [done |]. destruct Hdup as [[e He] Hin].
    exists values, e. rewrite He in Hin. done.
  - exists values. done.
Qed.

Lemma signup_db_cases (body : JsObject) (salt : string) (db : Db) :
  (signup body salt db).2 = db ∨
  ∃ e p g,
    ¬ (is_Some e ∧ e ∈ Users.email <$> users db) ∧
    (signup body salt db).2
    = {| users := users db ++
           [ {| Users.id := new_rowid (users_seq db) (Users.id <$> users db);
                Users.email := e; Users.password := p;
                Users.garage_name := g |} ];
         users_seq := new_rowid (users_seq db) (Users.id <$> users db);
         vehicles := vehicles db;
         vehicles_seq := vehicles_seq db |}.
Proof.
  unfold signup.
  destruct (bcrypt_hash_js _ _ _) as [err | hashed]; simpl.
  { left. by destruct (includes _ _). }
  pose proof (users_insert_cases (body !! "email")
                (Some (JsString hashed)) (body !! "garageName") db) as Hins.
  destruct (users_insert _ _ _ _) as [err | [rowid db']]; simpl.
  { left. by destruct (includes _ _). }
  destruct Hins as (values & _ & Hfresh & -> & ->). right. eauto.
Qed.

(** X1.  Whatever the body, a signup ends in one of three ways, each under
    its own condition.  200, when [password] is a string, the three
    arguments of the INSERT can be bound, and the text bound to [email] is
    NULL or held by no row: exactly one row is appended to [users], under an
    id above every id there was, holding the three bound values, and the
    token is signed over that id.  400 "Email already exists", when
    [password] is a string, the arguments can be bound, and the text bound to
    [email] is held by a row.  500, when [password] is not a string or the
    arguments cannot be bound.  On 400 and 500 the database is as it was,
    and [vehicles] is never touched. *)
Theorem signup_outcomes (body : JsObject) (salt : string) (db : Db) :
  (∃ pw values u,
     body !! "password" = Some (JsString pw) ∧
     bind_parameters 3
       [ body !! "email"; Some (JsString (bcrypt_hash pw 10 salt));
         body !! "garageName" ] = inr values ∧
     ¬ (is_Some (Users.email u) ∧ Users.email u ∈ Users.email <$> users db) ∧
     Users.email u = text_affinity (param values 1) ∧
     Users.password u = text_affinity (param values 2) ∧
     Users.garage_name u = text_affinity (param values 3) ∧
     Forall (λ u', Users.id u' < Users.id u) (users db) ∧
     (signup body salt db).1
     = res_json 200
         (AuthBody
            (jwt_sign {| userId := Users.id u;
                         claim_email := body !! "email";
                         claim_garageName := body !! "garageName" |}
               JWT_SECRET)
            (body !! "email") (body !! "garageName")) ∧
     users (signup body salt db).2 = users db ++ [u] ∧
     users_seq (signup body salt db).2 = Users.id u ∧
     vehicles (signup body salt db).2 = vehicles db ∧
     vehicles_seq (signup body salt db).2 = vehicles_seq db) ∨
  (∃ pw values e,
     body !! "password" = Some (JsString pw) ∧
     bind_parameters 3
       [ body !! "email"; Some (JsString (bcrypt_hash pw 10 salt));
         body !! "garageName" ] = inr values ∧
     text_affinity (param values 1) = Some e ∧
     Some e ∈ Users.email <$> users db ∧
     signup body salt db
     = (res_json 400 (ErrorBody "Email already exists"), db)) ∨
  (((∀ pw, body !! "password" ≠ Some (JsString pw)) ∨
    ∃ pw err,
      body !! "password" = Some (JsString pw) ∧
      bind_parameters 3
        [ body !! "email"; Some (JsString (bcrypt_hash pw 10 salt));
          body !! "garageName" ] = inl err) ∧
   signup body salt db
   = (res_json 500 (ErrorBody "Internal server error"), db)).
Proof.
  unfold signup.
  destruct (body !! "password") as [[| | |pw| |]|] eqn:Hpw;
    try (right; right; split; [left; congruence | reflexivity]).
  simpl.
  pose proof (users_insert_cases (body !! "email")
                (Some (JsString (bcrypt_hash pw 10 salt)))
                (body !! "garageName") db) as Hins.
  destruct (users_insert _ _ _ _) as [err | [rowid db']]; simpl.
  - destruct Hins as [[-> (values & e & Hbind & He & Hin)] | [Hbind ->]];
      simpl.
    + right; left. exists pw, values, e. done.
    + right; right. split; [| done]. right. by exists pw, err.
  - destruct Hins as (values & Hbind & Hfresh & -> & ->). left.
    exists pw, values. eexists. split_and!; try reflexivity; simpl; try done.
    apply Forall_forall. intros u' Hu'.
    apply new_rowid_fresh. by apply list_elem_of_fmap_2.
Qed.

(** X2.  Whatever the body, a login ends in one of three ways, the database
    being left as it was in each: 200, only when the argument of the SELECT
    binds to a text, [password] is a string, and [bcrypt.compare] accepts it
    against the stored hash of the first row holding that text as its email,
    the token being signed over that row's id, email and garage name;
    401 "Invalid credentials"; or 500. *)
Theorem login_outcomes (body : JsObject) (db : Db) :
  (∃ values u e pw hash,
     bind_parameters 1 [body !! "email"] = inr values ∧
     text_affinity (param values 1) = Some e ∧
     List.find (λ u, bool_decide (Users.email u = Some e)) (users db) = Some u ∧
     u ∈ users db ∧ Users.email u = Some e ∧
     body !! "password" = Some (JsString pw) ∧
     Users.password u = Some hash ∧
     bcrypt_compare pw hash = true ∧
     login body db
     = (res_json 200
          (AuthBody
             (jwt_sign {| userId := Users.id u;
                          claim_email := Some (js_of_text (Users.email u));
                          claim_garageName :=
                            Some (js_of_text (Users.garage_name u)) |}
                JWT_SECRET)
             (Some (js_of_text (Users.email u)))
             (Some (js_of_text (Users.garage_name u)))), db)) ∨
  login body db = (res_json 401 (ErrorBody "Invalid credentials"), db) ∨
  login body db = (res_json 500 (ErrorBody "Internal server error"), db).
Proof.
  unfold login, users_get_by_email.
  destruct (bind_parameters 1 [body !! "email"]) as [err | values] eqn:Hbind;
    simpl; [by right; right |].
  destruct (text_affinity (param values 1)) as [e|] eqn:He; simpl;
    [| by right; left].
  destruct (List.find _ _) as [u|] eqn:Hfind; simpl; [| by right; left].
  destruct (find_some _ _ Hfind) as [Hin Heq%bool_decide_eq_true].
  apply list_elem_of_In in Hin.
  destruct (body !! "password") as [[| | |pw| |]|] eqn:Hpw; simpl;
    try (by right; right).
  destruct (Users.password u) as [hash|] eqn:Hhash; simpl;
    [| by right; right].
  destruct (bcrypt_compare pw hash) eqn:Hcmp; simpl; [| by right; left].
  left. exists values, u, e, pw, hash. done.
Qed.

Lemma find_app_None {T} (f : T → bool) (l1 l2 : list T) :
  List.find f l1 = None → List.find f (l1 ++ l2) = List.find f l2.
Proof.
  induction l1 as [|x l1 IH]; [done |]. simpl.
  destruct (f x); [done | exact IH].
Qed.

(** X3.  Signup, then login.  If [bcrypt.compare] accepts a password
    against the hash [bcrypt.hash] made of it, then after the signup of a
    form whose email no row held, a login with the same form is answered 200
    with a token signed over the id the signup assigned, the email and the
    garage name, and leaves the database as the signup left it. *)
Theorem signup_then_login (f : AuthForm.t) (salt : string) (db : Db) :
  bcrypt_compare (AuthForm.password f)
    (bcrypt_hash (AuthForm.password f) 10 salt) = true →
  Some (AuthForm.email f) ∉ Users.email <$> users db →
  let rowid := new_rowid (users_seq db) (Users.id <$> users db) in
  let claim :=
    {| userId := rowid;
       claim_email := Some (JsString (AuthForm.email f));
       claim_garageName := Some (JsString (AuthForm.garageName f)) |} in
  let signed_up := signup (AuthForm.to_json f) salt db in
  status signed_up.1 = 200 ∧
  login (AuthForm.to_json f) signed_up.2
  = (res_json 200
       (AuthBody (jwt_sign claim JWT_SECRET)
          (Some (JsString (AuthForm.email f)))
          (Some (JsString (AuthForm.garageName f)))),
     signed_up.2).
Proof.
  intros Hcmp Hfresh rowid claim signed_up. subst signed_up.
  rewrite signup_form, decide_False by done. simpl. split; [done |].
  rewrite login_form. simpl.
  assert (List.find
            (λ u, bool_decide (Users.email u = Some (AuthForm.email f)))
            (users db) = None) as Hnone.
  { destruct (List.find _ _) as [u|] eqn:Hfind; [| done].
    apply find_some in Hfind as [Hin Heq%bool_decide_eq_true].
    destruct Hfresh. rewrite <- Heq.
    apply list_elem_of_fmap_2. by apply list_elem_of_In. }
  rewrite find_app_None by done. simpl.
  rewrite bool_decide_eq_true_2 by done. simpl.
  by rewrite Hcmp.
Qed.

(** *** One account per email *)

Lemma app_users (req : Request) (db : Db) :
  users (app req db).2 = users db ∨
  ∃ body salt, req = PostSignup body salt.
Proof.
  destruct req as [body salt | body | auth | auth body | auth id body | auth id];
    simpl.
  - right. eauto.
  - left. by rewrite login_db.
  - left. by apply (authenticate_keeps users).
  - left. apply (authenticate_keeps users). intros. apply post_vehicles_users.
  - left. apply (authenticate_keeps users). intros. apply put_vehicle_users.
  - left. by apply (authenticate_keeps users).
Qed.

Lemma signup_accounts_ok body salt db :
  accounts_ok db → accounts_ok (signup body salt db).2.
Proof.
  intros [Hemails Hids].
  destruct (signup_db_cases body salt db) as [-> | (e & p & g & Hfresh & ->)];
    [done |].
  unfold accounts_ok, emails_unique. simpl. split.
  - rewrite omap_app. apply NoDup_app. split_and!; [done | |].
    + intros e' He'. simpl. destruct e as [e|]; [| by intros ?%elem_of_nil].
      intros ->%list_elem_of_singleton. apply Hfresh. split; [by eexists |].
      apply list_elem_of_omap in He' as (u' & Hu' & <-).
      by apply list_elem_of_fmap_2.
    + simpl. destruct e; [apply NoDup_singleton | apply NoDup_nil_2].
  - apply StronglySorted_app_2; [| done | repeat constructor].
    intros u1 u2 Hu1 ->%list_elem_of_singleton. unfold user_id_lt. simpl.
    apply new_rowid_fresh. by apply list_elem_of_fmap_2.
Qed.

Lemma app_accounts_ok (req : Request) (db : Db) :
  accounts_ok db → accounts_ok (app req db).2.
Proof.
  intros Hok. destruct (app_users req db) as [Heq | (body & salt & ->)].
  - unfold accounts_ok, emails_unique. by rewrite Heq.
  - by apply signup_accounts_ok.
Qed.

(** X4.  In every database the server reaches from the empty one, by any
    sequence of requests with any bodies, no two accounts hold the same
    email text and the account ids grow along the table, so no two accounts
    share an id either. *)
Theorem accounts_stay_unique (reqs : list Request) :
  emails_unique (run reqs empty_db) ∧
  StronglySorted user_id_lt (users (run reqs empty_db)) ∧
  NoDup (Users.id <$> users (run reqs empty_db)).
Proof.
  assert (∀ db, accounts_ok db → accounts_ok (run reqs db)) as Hrun.
  { induction reqs as [|req reqs IH]; intros db Hok; [done |].
    simpl. by apply IH, app_accounts_ok. }
  destruct (Hrun empty_db) as [Hemails Hids].
  { split; [apply NoDup_nil_2 | constructor]. }
  split_and!; [done | done |].
  clear Hemails. induction Hids as [|u us Hus IH Hu]; [apply NoDup_nil_2 |].
  csimpl. apply NoDup_cons. split; [| done].
  intros (u' & Heq & Hu')%list_elem_of_fmap.
  rewrite Forall_forall in Hu. apply Hu in Hu'. unfold user_id_lt in Hu'. lia.
Qed.

(** *** Updates and deletes of the caller's own record *)

Lemma rowids_increasing_NoDup (rows : list Vehicles.row) :
  StronglySorted id_lt rows → NoDup rows.
Proof.
  induction 1 as [|r rows Hrows IH Hr]; [apply NoDup_nil_2 |].
  apply NoDup_cons. split; [| done].
  intros Hin. rewrite Forall_forall in Hr. apply Hr in Hin.
  unfold id_lt in Hin. lia.
Qed.

Lemma fmap_guarded_insert {T} (Q : T → Prop) `{∀ y, Decision (Q y)}
    (g : T → T) (l : list T) (i : nat) (x : T) :
  NoDup l → l !! i = Some x → (∀ y, y ∈ l → Q y ↔ y = x) →
  (λ y, if decide (Q y) then g y else y) <$> l = <[i := g x]> l.
Proof.
  intros Hnd. revert i. induction Hnd as [|y l Hy Hnd IH]; intros i Hi HQ.
  { by rewrite lookup_nil in Hi. }
  destruct i as [|i]; simpl in Hi; csimpl.
  - injection Hi as ->.
    rewrite decide_True by (apply HQ; [left | done]). f_equal.
    clear IH. induction l as [|z l IHl]; [done |]. csimpl.
    apply not_elem_of_cons in Hy as [Hzx Hy]. apply NoDup_cons in Hnd as [_ Hnd].
    rewrite decide_False.
    + f_equal. apply IHl; [done | done |].
      intros w Hw. apply HQ. apply elem_of_cons in Hw as [-> | Hw];
        [left | right; by right].
    + intros HQz. apply HQ in HQz; [congruence | right; left].
  - assert (y ≠ x) as Hne.
    { intros ->. apply Hy. by eapply list_elem_of_lookup_2. }
    rewrite decide_False.
    + f_equal. apply IH; [done |]. intros w Hw. apply HQ. by right.
    + intros HQy. apply HQ in HQy; [done | left].
Qed.

Lemma filter_guarded_delete {T} (Q : T → Prop) `{∀ y, Decision (Q y)}
    (l : list T) (i : nat) (x : T) :
  NoDup l → l !! i = Some x → (∀ y, y ∈ l → Q y ↔ y = x) →
  filter (λ y, ¬ Q y) l = delete i l.
Proof.
  intros Hnd. revert i. induction Hnd as [|y l Hy Hnd IH]; intros i Hi HQ.
  { by rewrite lookup_nil in Hi. }
  destruct i as [|i]; simpl in Hi; simpl.
  - injection Hi as ->.
    rewrite filter_cons_False by (intros Hn; apply Hn, HQ; [left | done]).
    clear IH. induction l as [|z l IHl]; [done |].
    apply not_elem_of_cons in Hy as [Hzx Hy]. apply NoDup_cons in Hnd as [_ Hnd].
    rewrite filter_cons_True.
    + f_equal. apply IHl; [done | done |].
      intros w Hw. apply HQ. apply elem_of_cons in Hw as [-> | Hw];
        [left | right; by right].
    + intros HQz. apply HQ in HQz; [congruence | right; left].
  - assert (y ≠ x) as Hne.
    { intros ->. apply Hy. by eapply list_elem_of_lookup_2. }
    rewrite filter_cons_True.
    + f_equal. apply IH; [done |]. intros w Hw. apply HQ. by right.
    + intros HQy. apply HQ in HQy; [done | left].
Qed.

Lemma where_names_own_row id (user : Claim) db i r :
  rowids_increasing db →
  vehicles db !! i = Some r →
  text_to_integer id = Some (Vehicles.id r) →
  Vehicles.user_id r = userId user →
  ∀ r', r' ∈ vehicles db →
        where_id_and_user_id id (userId user) r' ↔ r' = r.
Proof.
  intros Hok Hi Hid Hu r' Hr'. split.
  - intros [Hid' _]. rewrite Hid in Hid'. injection Hid' as Hid'.
    apply (StronglySorted_same_id (vehicles db)); eauto.
    by eapply list_elem_of_lookup_2.
  - by intros ->.
Qed.

Lemma put_vehicle_ids_and_seq
    (user : Claim) (id : string) (body : JsObject) (db : Db) :
  Vehicles.id <$> vehicles (put_vehicle user id body db).2
  = Vehicles.id <$> vehicles db ∧
  vehicles_seq (put_vehicle user id body db).2 = vehicles_seq db.
Proof.
  unfold put_vehicle.
  destruct (vehicles_update _ _ _ _ _ _ _ _ _ _ _) as [e | db'] eqn:Hupd;
    [done |].
  apply vehicles_update_inr in Hupd as (_ & _ & Hvs & set & Hset & Hv).
  simpl. rewrite Hv, <- list_fmap_compose. split; [| done].
  apply list_fmap_ext. intros _ r _. simpl.
  case_decide; [apply Hset | done].
Qed.

(** X5.  A [PUT] never changes which records exist or whose they are:
    whatever the record id and the body, the ids and the owners of the rows
    of [vehicles] are, position by position, what they were, and the
    accounts and both rowid counters are untouched. *)
Theorem put_vehicle_keeps_ids_and_owners
    (user : Claim) (id : string) (body : JsObject) (db : Db) :
  Vehicles.id <$> vehicles (put_vehicle user id body db).2
  = Vehicles.id <$> vehicles db ∧
  Vehicles.user_id <$> vehicles (put_vehicle user id body db).2
  = Vehicles.user_id <$> vehicles db ∧
  users (put_vehicle user id body db).2 = users db ∧
  users_seq (put_vehicle user id body db).2 = users_seq db ∧
  vehicles_seq (put_vehicle user id body db).2 = vehicles_seq db.
Proof.
  unfold put_vehicle.
  destruct (vehicles_update _ _ _ _ _ _ _ _ _ _ _) as [e | db'] eqn:Hupd;
    [done |].
  apply vehicles_update_inr in Hupd as (Hu & Hus & Hvs & set & Hset & Hv).
  simpl. rewrite Hv, <- !list_fmap_compose. split_and!; try done.
  - apply list_fmap_ext. intros _ r _. simpl.
    case_decide; [apply Hset | done].
  - apply list_fmap_ext. intros _ r _. simpl.
    case_decide; [apply Hset | done].
Qed.

(** X6.  A [PUT] with the fields of a vehicle form, sent by the owner of
    the row the id names, in a database whose rowids grow along the table:
    exactly that row is overwritten, in place, with the eight submitted
    fields under its old id and owner; every other row, the accounts and the
    counters stay as they were; the answer is 200 [{ success: true }]. *)
Theorem put_vehicle_rewrites_own_record
    (user : Claim) (id : string) (f : VehicleForm.t) (db : Db)
    (i : nat) (r : Vehicles.row) :
  rowids_increasing db →
  vehicles db !! i = Some r →
  text_to_integer id = Some (Vehicles.id r) →
  Vehicles.user_id r = userId user →
  put_vehicle user id (VehicleForm.to_json f) db
  = (res_json 200 SuccessBody,
     {| users := users db; users_seq := users_seq db;
        vehicles :=
          <[i := VehicleForm.to_row (Vehicles.id r) (userId user) f]>
            (vehicles db);
        vehicles_seq := vehicles_seq db |}).
Proof.
  intros Hok Hi Hid Hu. rewrite put_vehicle_form. do 2 f_equal.
  rewrite (fmap_guarded_insert (where_id_and_user_id id (userId user))
             (λ r, VehicleForm.to_row (Vehicles.id r) (Vehicles.user_id r) f)
             (vehicles db) i r).
  - by rewrite Hu.
  - by apply rowids_increasing_NoDup.
  - done.
  - by eapply where_names_own_row.
Qed.

(** X7.  A [DELETE] sent by the owner of the row the id names, in a
    database whose rowids grow along the table: exactly that row is removed
    and the rest of the table keeps its rows and their order; the accounts
    and the counters stay as they were; the answer is 200
    [{ success: true }]. *)
Theorem delete_vehicle_removes_own_record
    (user : Claim) (id : string) (db : Db) (i : nat) (r : Vehicles.row) :
  rowids_increasing db →
  vehicles db !! i = Some r →
  text_to_integer id = Some (Vehicles.id r) →
  Vehicles.user_id r = userId user →
  delete_vehicle user id db
  = (res_json 200 SuccessBody,
     {| users := users db; users_seq := users_seq db;
        vehicles := delete i (vehicles db);
        vehicles_seq := vehicles_seq db |}).
Proof.
  intros Hok Hi Hid Hu. unfold delete_vehicle, vehicles_delete. do 2 f_equal.
  apply (filter_guarded_delete (where_id_and_user_id id (userId user))
           (vehicles db) i r).
  - by apply rowids_increasing_NoDup.
  - done.
  - by eapply where_names_own_row.
Qed.

(** *** Repeating an update or a delete *)

Lemma vehicles_update_twice o p v mk md l n nt id user_id db db' :
  vehicles_update o p v mk md l n nt id user_id db = inr db' →
  vehicles_update o p v mk md l n nt id user_id db' = inr db'.
Proof.
  unfold vehicles_update. bind_cases.
  intros [= <-]. simpl. do 2 f_equal.
  rewrite <- list_fmap_compose. apply list_fmap_ext. intros _ r _. simpl.
  destruct (decide (where_bound (param values 9) (param values 10) r))
    as [Hr | Hr].
  - by rewrite decide_True.
  - by rewrite decide_False.
Qed.

(** X8.  Sending the same [PUT] or the same [DELETE] a second time changes
    nothing more: the second request gets the answer of the first and
    leaves the database as the first left it, whatever the id and the
    body. *)
Theorem put_and_delete_idempotent
    (user : Claim) (id : string) (body : JsObject) (db : Db) :
  put_vehicle user id body (put_vehicle user id body db).2
  = put_vehicle user id body db ∧
  delete_vehicle user id (delete_vehicle user id db).2
  = delete_vehicle user id db.
Proof.
  split.
  - unfold put_vehicle.
    destruct (vehicles_update _ _ _ _ _ _ _ _ _ _ db) as [e | db'] eqn:Hupd;
      simpl.
    + by rewrite Hupd.
    + by rewrite (vehicles_update_twice _ _ _ _ _ _ _ _ _ _ _ _ Hupd).
  - unfold delete_vehicle, vehicles_delete. simpl. do 2 f_equal.
    induction (vehicles db) as [|r rows IH]; [done |].
    rewrite (filter_cons _ r rows).
    destruct (decide (¬ where_id_and_user_id id (userId user) r)) as [Hr | Hr].
    + rewrite filter_cons_True by done. by rewrite IH.
    + exact IH.
Qed.

(** *** What a request can do to [vehicles] *)

Lemma authenticate_cases authorization (next : Claim → Handler) db :
  (∃ error, authenticate authorization next db
            = (res_json 401 (ErrorBody error), db)) ∨
  ∃ token user,
    bearer_token authorization = Some token ∧
    jwt_verify token JWT_SECRET = Some user ∧
    authenticate authorization next db = next user db.
Proof.
  unfold authenticate.
  destruct (bearer_token authorization) as [[|c token]|]; [by left; eauto | |
    by left; eauto].
  destruct (jwt_verify _ _) as [user|] eqn:Hv; [| by left; eauto].
  right. eauto.
Qed.

Lemma post_vehicles_cases (user : Claim) (body : JsObject) (db : Db) :
  (∃ e, post_vehicles user body db = uncaught e db) ∨
  ∃ r,
    Vehicles.id r = new_rowid (vehicles_seq db) (Vehicles.id <$> vehicles db) ∧
    Vehicles.user_id r = userId user ∧
    post_vehicles user body db
    = (res_json 200 (ObjectBody (body ∪ {[ "id" := JsNumber (Vehicles.id r) ]})),
       {| users := users db; users_seq := users_seq db;
          vehicles := vehicles db ++ [r];
          vehicles_seq := Vehicles.id r |}).
Proof.
  unfold post_vehicles.
  destruct (vehicles_insert _ _ _ _ _ _ _ _ _ _) as [e | [rowid db']] eqn:Hins;
    [left; by eexists |].
  apply vehicles_insert_inr in Hins as (-> & Hu & Hus & Hs & r & Hv & Hid & Hr).
  right. exists r. split_and!; [done | done |].
  rewrite Hid. f_equal. destruct db'; simpl in *. congruence.
Qed.

(** Either the counter and the set of ids are as they were or smaller, or
    one row was appended under a new rowid, which the counter now holds. *)
Lemma app_vehicle_ids (req : Request) (db : Db) :
  (vehicles_seq (app req db).2 = vehicles_seq db ∧
   ∀ r', r' ∈ vehicles (app req db).2 →
         Vehicles.id r' ∈ Vehicles.id <$> vehicles db) ∨
  ∃ r, vehicles (app req db).2 = vehicles db ++ [r] ∧
       Vehicles.id r
       = new_rowid (vehicles_seq db) (Vehicles.id <$> vehicles db) ∧
       vehicles_seq (app req db).2 = Vehicles.id r.
Proof.
  assert (∀ db' : Db, vehicles_seq db' = vehicles_seq db →
            vehicles db' = vehicles db →
            vehicles_seq db' = vehicles_seq db ∧
            ∀ r', r' ∈ vehicles db' →
                  Vehicles.id r' ∈ Vehicles.id <$> vehicles db) as Hsame.
  { intros db' Hs Hv. split; [done |]. rewrite Hv. intros r' Hr'.
    by apply list_elem_of_fmap_2. }
  destruct req as [body salt | body | auth | auth body | auth id body | auth id];
    simpl.
  - left. apply Hsame; [| apply signup_vehicles].
    by destruct (signup_db_cases body salt db) as [-> | (e & p & g & _ & ->)].
  - left. rewrite login_db. by apply Hsame.
  - left. apply Hsame; by apply (authenticate_keeps _).
  - destruct (authenticate_cases auth (λ user, post_vehicles user body) db)
      as [[error ->] | (token & user & _ & _ & ->)]; [left; by apply Hsame |].
    destruct (post_vehicles_cases user body db) as [[e ->] | (r & Hid & _ & ->)].
    + left. by apply Hsame.
    + right. exists r. done.
  - left.
    destruct (authenticate_cases auth (λ user, put_vehicle user id body) db)
      as [[error ->] | (token & user & _ & _ & ->)]; [by apply Hsame |].
    destruct (put_vehicle_ids_and_seq user id body db)
      as (Hids & Hs).
    split; [done |]. intros r' Hr'. rewrite <- Hids.
    by apply list_elem_of_fmap_2.
  - left.
    destruct (authenticate_cases auth (λ user, delete_vehicle user id) db)
      as [[error ->] | (token & user & _ & _ & ->)]; [by apply Hsame |].
    simpl. split; [done |]. intros r' [_ Hr']%list_elem_of_filter.
    by apply list_elem_of_fmap_2.
Qed.

(** *** Rowids are handed out once *)

Lemma new_rowid_above_seq (seq : Z) (ids : list Z) : seq < new_rowid seq ids.
Proof. unfold new_rowid. lia. Qed.

Lemma app_seq_dominates (req : Request) (db : Db) :
  seq_dominates db →
  seq_dominates (app req db).2 ∧
  vehicles_seq db ≤ vehicles_seq (app req db).2 ∧
  ∀ r', r' ∈ vehicles (app req db).2 →
        Vehicles.id r' ∈ (Vehicles.id <$> vehicles db) ∨
        vehicles_seq db < Vehicles.id r'.
Proof.
  unfold seq_dominates. rewrite !Forall_forall. intros Hdom.
  assert (∀ i, i ∈ Vehicles.id <$> vehicles db → i ≤ vehicles_seq db) as Hids.
  { intros i (r & -> & Hr)%list_elem_of_fmap. by apply Hdom. }
  destruct (app_vehicle_ids req db) as [[Hseq Hsub] | (r & Hv & Hid & Hseq)].
  - rewrite Hseq. split_and!; [| lia |].
    + intros r' Hr'. by apply Hids, Hsub.
    + intros r' Hr'. left. by apply Hsub.
  - pose proof (new_rowid_above_seq (vehicles_seq db)
                  (Vehicles.id <$> vehicles db)) as Habove.
    rewrite Hseq, Hv, Hid. split_and!; [| lia |].
    + intros r' [Hr' | ->%list_elem_of_singleton]%elem_of_app.
      * apply Hdom in Hr'. lia.
      * lia.
    + intros r' [Hr' | ->%list_elem_of_singleton]%elem_of_app.
      * left. by apply list_elem_of_fmap_2.
      * right. lia.
Qed.

(** X9.  Rowids of [vehicles] are never reused.  From a database whose
    counter is at least every rowid in the table, after any sequence of
    requests: the counter has not gone down and is still at least every
    rowid; and every row carries either the id of a row that was there at
    the start or an id above the counter of the start.  An id below the
    counter that a delete has freed does not come back. *)
Theorem rowids_never_reused (reqs : list Request) (db : Db) :
  seq_dominates db →
  seq_dominates (run reqs db) ∧
  vehicles_seq db ≤ vehicles_seq (run reqs db) ∧
  ∀ r', r' ∈ vehicles (run reqs db) →
        Vehicles.id r' ∈ (Vehicles.id <$> vehicles db) ∨
        vehicles_seq db < Vehicles.id r'.
Proof.
  revert db. induction reqs as [|req reqs IH]; intros db Hdom.
  { simpl. split_and!; [done | lia |].
    intros r' Hr'. left. by apply list_elem_of_fmap_2. }
  destruct (app_seq_dominates req db Hdom) as (Hdom1 & Hle1 & Hids1).
  destruct (IH _ Hdom1) as (Hdom2 & Hle2 & Hids2).
  simpl. split_and!; [done | lia |].
  intros r' Hr'. destruct (Hids2 r' Hr') as [Hin | Hgt].
  - apply list_elem_of_fmap in Hin as (r1 & -> & Hr1). by apply Hids1.
  - right. lia.
Qed.

(** *** Who owns a created row *)

(** X10.  A create through the route either leaves the database as it was
    (the request was refused, the arguments could not be bound, or the
    account of the token has no row) or appends exactly one row, and that
    row belongs to the account of the claim that [jwt.verify] decoded from
    the request's token, an account that exists, whatever the body holds;
    the accounts are untouched either way. *)
Theorem created_row_owner_from_token
    (authorization : option string) (body : JsObject) (db : Db) :
  (app (PostVehicles authorization body) db).2 = db ∨
  ∃ token user r,
    bearer_token authorization = Some token ∧
    jwt_verify token JWT_SECRET = Some user ∧
    Vehicles.user_id r = userId user ∧
    userId user ∈ Users.id <$> users db ∧
    vehicles (app (PostVehicles authorization body) db).2
    = vehicles db ++ [r] ∧
    users (app (PostVehicles authorization body) db).2 = users db.
Proof.
  simpl.
  destruct (authenticate_cases authorization (λ user, post_vehicles user body) db)
    as [[error ->] | (token & user & Htoken & Hverify & ->)]; [by left |].
  unfold post_vehicles.
  destruct (vehicles_insert _ _ _ _ _ _ _ _ _ _) as [e | [rowid db']] eqn:Hins;
    [by left |].
  pose proof (vehicles_insert_account _ _ _ _ _ _ _ _ _ _ _ _ Hins) as Hfk.
  apply vehicles_insert_inr in Hins as (_ & Hu & _ & _ & r & Hv & _ & Hr).
  right. exists token, user, r. done.
Qed.

(** *** The header the middleware accepts *)

Lemma split_space_no_space (s : string) :
  has_space s = false → split_space s = [s].
Proof.
  induction s as [|c s IH]; [done |]. simpl.
  destruct (Ascii.eqb c " "); [done |]. simpl. intros Hs.
  by rewrite IH.
Qed.

Lemma split_space_app (a b : string) :
  has_space a = false →
  split_space (a +:+ " " +:+ b) = a :: split_space b.
Proof.
  induction a as [|c a IH]; [done |]. simpl.
  destruct (Ascii.eqb c " "); [done |]. simpl. intros Ha.
  by rewrite IH.
Qed.

(** X11.  The middleware reads the second space-separated piece of the
    [Authorization] header and nothing else: for any first word without a
    space, [Bearer] or not, followed by one space and a non-empty token
    without a space that [jwt.verify] accepts, the handler runs with the
    decoded claim. *)
Theorem authenticate_reads_second_piece
    (scheme token : string) (user : Claim) (next : Claim → Handler) (db : Db) :
  has_space scheme = false →
  has_space token = false →
  token ≠ EmptyString →
  jwt_verify token JWT_SECRET = Some user →
  authenticate (Some (scheme +:+ " " +:+ token)) next db = next user db.
Proof.
  intros Hscheme Htoken Hne Hverify. unfold authenticate, bearer_token. simpl.
  rewrite split_space_app, split_space_no_space by done. simpl.
  destruct token as [|c token]; [done |]. by rewrite Hverify.
Qed.

(** *** The edit form against the server *)

Lemma authenticate_bearer (token : string) (user : Claim)
    (next : Claim → Handler) (db : Db) :
  has_space token = false →
  token ≠ EmptyString →
  jwt_verify token JWT_SECRET = Some user →
  authenticate (bearer token) next db = next user db.
Proof.
  intros Htoken Hne Hverify.
  assert (bearer_token (bearer token) = Some token) as Hbearer.
  { change (bearer_token (bearer token))
      with (split_space ("Bearer" +:+ " " +:+ token) !! 1%nat).
    by rewrite split_space_app, split_space_no_space. }
  unfold authenticate. rewrite Hbearer.
  destruct token as [|c token]; [done |]. by rewrite Hverify.
Qed.

Lemma vehicle_of_row_Some (r : Vehicles.row) (v : Vehicle.t) :
  vehicle_of_row r = Some v →
  Vehicle.id v = Vehicles.id r ∧
  VehicleForm.to_row (Vehicles.id r) (Vehicles.user_id r) (openEditModal v) = r.
Proof.
  destruct r as [id user_id [o|] [p|] [vn|] [mk|] [md|] [l|] [n|] [nt|]];
    simpl; intros [= <-]; done.
Qed.

(** X12.  Opening the edit form on a listed record and submitting it
    unchanged.  For a row of the caller whose columns all hold a text, in a
    database whose rowids grow along the table, with a session token the
    middleware accepts and a record id that SQLite reads back from its
    decimal digits: the [PUT] the component sends is answered 200
    [{ success: true }] and leaves the database exactly as it was. *)
Theorem edit_unchanged_is_noop
    (token : string) (user : Claim) (db : Db)
    (i : nat) (r : Vehicles.row) (v : Vehicle.t) :
  has_space token = false →
  token ≠ EmptyString →
  jwt_verify token JWT_SECRET = Some user →
  rowids_increasing db →
  vehicles db !! i = Some r →
  Vehicles.user_id r = userId user →
  vehicle_of_row r = Some v →
  text_to_integer (id_string (Vehicles.id r)) = Some (Vehicles.id r) →
  app (handleVehicleSubmit token (Some v) (openEditModal v)) db
  = (res_json 200 SuccessBody, db).
Proof.
  intros Htoken Hne Hverify Hok Hi Hu Hv Hid.
  destruct (vehicle_of_row_Some r v Hv) as [Hvid Hrow].
  simpl. rewrite (authenticate_bearer token user) by done.
  rewrite put_vehicle_form, Hvid.
  rewrite (fmap_guarded_insert
             (where_id_and_user_id (id_string (Vehicles.id r)) (userId user))
             (λ r, VehicleForm.to_row (Vehicles.id r) (Vehicles.user_id r)
                     (openEditModal v))
             (vehicles db) i r).
  - rewrite Hrow, list_insert_id by done. by rewrite db_eta.
  - by apply rowids_increasing_NoDup.
  - done.
  - by eapply where_names_own_row.
Qed.

(** *** Update or delete, then list *)

Lemma filter_owned_put (a : Z) (id : string) (f : VehicleForm.t)
    (rows : list Vehicles.row) :
  filter (owned_by a)
    ((λ r, if decide (where_id_and_user_id id a r)
           then VehicleForm.to_row (Vehicles.id r) (Vehicles.user_id r) f
           else r) <$> rows)
  = (λ r, if decide (text_to_integer id = Some (Vehicles.id r))
          then VehicleForm.to_row (Vehicles.id r) a f
          else r) <$> filter (owned_by a) rows.
Proof.
  induction rows as [|r rows IH]; [done |]. csimpl.
  destruct (decide (owned_by a r)) as [Hr | Hr].
  - rewrite (filter_cons_True (owned_by a) r) by done. csimpl. rewrite <- IH.
    unfold owned_by in Hr.
    destruct (decide (text_to_integer id = Some (Vehicles.id r))) as [Hid | Hid].
    + rewrite decide_True by done. rewrite Hr.
      by rewrite filter_cons_True.
    + rewrite decide_False by (by intros [? _]).
      by rewrite filter_cons_True.
  - rewrite (filter_cons_False (owned_by a) r) by done.
    rewrite decide_False by (by intros [_ ?]).
    by rewrite filter_cons_False.
Qed.

Lemma filter_owned_deleted (a : Z) (id : string) (rows : list Vehicles.row) :
  filter (owned_by a) (filter (λ r, ¬ where_id_and_user_id id a r) rows)
  = filter (λ r, text_to_integer id ≠ Some (Vehicles.id r))
      (filter (owned_by a) rows).
Proof.
  induction rows as [|r rows IH]; [done |].
  destruct (decide (owned_by a r)) as [Hr | Hr].
  - rewrite (filter_cons_True (owned_by a) r) by done.
    destruct (decide (text_to_integer id = Some (Vehicles.id r))) as [Hid | Hid].
    + rewrite (filter_cons_False _ r) by (by intros Hn; apply Hn).
      by rewrite (filter_cons_False _ r) by (by intros Hn; apply Hn).
    + rewrite (filter_cons_True _ r) by (by intros [? _]).
      rewrite (filter_cons_True (owned_by a) r) by done.
      rewrite (filter_cons_True _ r) by done. by rewrite IH.
  - rewrite (filter_cons_False (owned_by a) r) by done.
    rewrite (filter_cons_True _ r) by (by intros [_ ?]).
    by rewrite (filter_cons_False (owned_by a) r).
Qed.

(** X13.  Update, then list.  In a database whose rowids grow along the
    table, after a [PUT] with the fields of a vehicle form the caller's list
    is the list before it, in the same order, where every record the id
    names now holds the submitted fields under its old id; a [PUT] whose id
    names none of the caller's records leaves the list as it was. *)
Theorem update_then_list
    (user : Claim) (id : string) (f : VehicleForm.t) (db : Db) :
  rowids_increasing db →
  (get_vehicles user (put_vehicle user id (VehicleForm.to_json f) db).2).1
  = res_json 200
      (VehiclesBody
         ((λ r, if decide (text_to_integer id = Some (Vehicles.id r))
                then VehicleForm.to_row (Vehicles.id r) (userId user) f
                else r) <$> vehicles_select (userId user) db)).
Proof.
  intros Hok.
  pose proof (put_vehicle_rowids_increasing user id (VehicleForm.to_json f) db Hok)
    as Hok'.
  unfold get_vehicles. simpl.
  rewrite !vehicles_select_reverse by done.
  rewrite put_vehicle_form. simpl.
  by rewrite filter_owned_put, fmap_reverse.
Qed.

(** X14.  Delete, then list.  In a database whose rowids grow along the
    table, after a [DELETE] the caller's list is the list before it without
    the records the id names, the others in the same order. *)
Theorem delete_then_list (user : Claim) (id : string) (db : Db) :
  rowids_increasing db →
  (get_vehicles user (delete_vehicle user id db).2).1
  = res_json 200
      (VehiclesBody
         (filter (λ r, text_to_integer id ≠ Some (Vehicles.id r))
            (vehicles_select (userId user) db))).
Proof.
  intros Hok.
  pose proof (delete_vehicle_rowids_increasing user id db Hok) as Hok'.
  unfold get_vehicles. simpl.
  rewrite !vehicles_select_reverse by done. simpl.
  by rewrite filter_owned_deleted, filter_reverse.
Qed.

End Server.

(** ** The dashboard's classification *)

Lemma is_upcoming_not_overdue (addDays : Z → Z → Z) (next : option Z) (today : Z) :
  is_upcoming addDays next today = true → is_overdue next today = false.
Proof.
  unfold is_upcoming, is_overdue, isAfter, isBefore.
  destruct next as [n|]; [| done]. intros [H _]%andb_prop. lia.
Qed.

(** C2, as the code has it.  With the next service date and "now" as two
    instants, the two filters of the dashboard classify a record as Overdue
    if next < now, as UpcomingWithin7Days if now < next < now+7days, strictly
    after now, and as Scheduled otherwise; a record whose next service date
    is now itself is Scheduled, neither overdue nor upcoming.  The counters
    of [stats] and the [isOverdue] flag of a card are this classification. *)
Theorem derived_status_strict
    (parseISO : string → option Z) (addDays : Z → Z → Z) :
  (∀ next now : Z,
     derived_status addDays (Some next) now =
     if bool_decide (next < now) then Overdue
     else if bool_decide (now < next ∧ next < addDays now 7)
          then UpcomingWithin7Days
     else Scheduled) ∧
  (∀ now : Z, derived_status addDays (Some now) now = Scheduled) ∧
  (∀ (vehicles : list Vehicle.t) (today : Z),
     let status v :=
       derived_status addDays (parseISO (Vehicle.next_service_date v)) today in
     overdue (stats parseISO addDays vehicles today)
     = length (filter (λ v, status v = Overdue) vehicles) ∧
     upcoming (stats parseISO addDays vehicles today)
     = length (filter (λ v, status v = UpcomingWithin7Days) vehicles) ∧
     ∀ v, isOverdue parseISO v today = bool_decide (status v = Overdue)).
Proof.
  assert (∀ next now : Z,
     derived_status addDays (Some next) now =
     if bool_decide (next < now) then Overdue
     else if bool_decide (now < next ∧ next < addDays now 7)
          then UpcomingWithin7Days
     else Scheduled) as Hstatus.
  { intros next now.
    unfold derived_status, is_overdue, is_upcoming, isBefore, isAfter.
    repeat case_bool_decide;
      destruct (next <? now) eqn:E1; destruct (next >? now) eqn:E2;
      destruct (next <? addDays now 7) eqn:E3; simpl; try done; lia. }
  split; [done |]. split.
  { intros now. rewrite Hstatus.
    rewrite !bool_decide_eq_false_2 by lia. done. }
  intros vehicles today status. split_and!.
  - simpl. f_equal. apply list_filter_iff. intros v. subst status.
    unfold derived_status. simpl.
    destruct (is_overdue _ _); [done |].
    destruct (is_upcoming _ _ _); split; done.
  - simpl. f_equal. apply list_filter_iff. intros v. subst status.
    unfold derived_status. simpl.
    destruct (is_upcoming _ _ _) eqn:Hup.
    + rewrite (is_upcoming_not_overdue _ _ _ Hup). done.
    + destruct (is_overdue _ _); split; done.
  - intros v. subst status. unfold isOverdue, derived_status. simpl.
    destruct (is_overdue _ _); [done |].
    by destruct (is_upcoming _ _ _).
Qed.

(** C2 as the specification words it fails when the next service date is
    now itself: the specification says UpcomingWithin7Days, the dashboard
    counts the record as neither overdue nor upcoming. *)
Lemma derived_status_at_now_counterexample :
  derived_status Toy.addDays (Some Demo.midnight) Demo.midnight
  ≠ spec_status Toy.addDays Demo.midnight Demo.midnight.
Proof. vm_compute. discriminate. Qed.

(** The scenario of the specification, a record due on 2024-01-02: at
    midnight of that day the dashboard counts it as neither overdue nor
    upcoming, at noon of that day as overdue. *)
Example stats_on_the_due_day :
  stats Toy.parseISO Toy.addDays [Demo.jane_vehicle] Demo.midnight
  = {| total := 1; overdue := 0; upcoming := 0 |} ∧
  stats Toy.parseISO Toy.addDays [Demo.jane_vehicle] Demo.noon
  = {| total := 1; overdue := 1; upcoming := 0 |} ∧
  isOverdue Toy.parseISO Demo.jane_vehicle Demo.noon = true.
Proof. repeat split; reflexivity. Qed.

(** ** The theorems at work on the example data *)

(** A decidable proposition that evaluates to true. *)
Ltac by_evaluation :=
  lazymatch goal with
  | |- ?P => apply (@bool_decide_unpack P _); vm_compute; exact I
  end.

Lemma example_sessions :
  session Demo.secret Toy.jwt_verify Sample.alice_header Sample.alice ∧
  session Demo.secret Toy.jwt_verify Sample.carol_header Sample.carol.
Proof.
  split.
  - exists "fallback-secret:1". by split_and!.
  - exists "fallback-secret:2". by split_and!.
Defined.

(** C1 on the example: Carol's session against Alice's rows, through the
    routes. *)
Lemma tenant_isolation_witness :
  session Demo.secret Toy.jwt_verify Sample.alice_header Sample.alice ∧
  session Demo.secret Toy.jwt_verify Sample.carol_header Sample.carol ∧
  userId Sample.alice ≠ userId Sample.carol ∧
  app Demo.secret Toy.bcrypt_hash Toy.bcrypt_compare Toy.jwt_sign
    Toy.jwt_verify Toy.number_to_text Toy.text_to_integer
    (GetVehicles Sample.carol_header) Demo.db
  = (res_json 200 (VehiclesBody (vehicles_select 2 Demo.db)), Demo.db) ∧
  filter (owned_by 1)
    (vehicles
       (app Demo.secret Toy.bcrypt_hash Toy.bcrypt_compare Toy.jwt_sign
          Toy.jwt_verify Toy.number_to_text Toy.text_to_integer
          (PutVehicle Sample.carol_header "1" (VehicleForm.to_json Demo.omar))
          Demo.db).2)
  = filter (owned_by 1) (vehicles Demo.db) ∧
  filter (owned_by 1)
    (vehicles
       (app Demo.secret Toy.bcrypt_hash Toy.bcrypt_compare Toy.jwt_sign
          Toy.jwt_verify Toy.number_to_text Toy.text_to_integer
          (DeleteVehicle Sample.carol_header "1") Demo.db).2)
  = filter (owned_by 1) (vehicles Demo.db).
Proof.
  assert (userId Sample.alice ≠ userId Sample.carol) as Hne
    by (vm_compute; discriminate).
  split; [exact (proj1 example_sessions) |].
  split; [exact (proj2 example_sessions) |].
  split; [exact Hne |].
  destruct (tenant_isolation Demo.secret Toy.bcrypt_hash Toy.bcrypt_compare
              Toy.jwt_sign Toy.jwt_verify Toy.number_to_text
              Toy.text_to_integer
              Sample.alice_header Sample.carol_header
              Sample.alice Sample.carol Demo.db
              (proj1 example_sessions) (proj2 example_sessions) Hne)
    as (Hget & _ & _ & _ & Hput & Hdel).
  split; [exact Hget |].
  split; [apply (Hput "1" (VehicleForm.to_json Demo.omar)) |].
  apply (Hdel "1").
Defined.

Lemma example_row_1_is_not_carols (r : Vehicles.row) :
  r ∈ vehicles Demo.db →
  Toy.text_to_integer "1" = Some (Vehicles.id r) →
  Vehicles.user_id r ≠ userId Demo.carol.
Proof.
  intros Hr. simpl in Hr.
  repeat (apply elem_of_cons in Hr as [-> | Hr]);
    [vm_compute; congruence .. | by apply elem_of_nil in Hr].
Defined.

(** C3 on the example: Carol's session names Alice's row 1. *)
Lemma noop_on_missing_or_foreign_id_witness :
  put_vehicle Toy.number_to_text Toy.text_to_integer Demo.carol "1"
    (VehicleForm.to_json Demo.omar) Demo.db
  = (res_json 200 SuccessBody, Demo.db) ∧
  delete_vehicle Toy.text_to_integer Demo.carol "1" Demo.db
  = (res_json 200 SuccessBody, Demo.db).
Proof.
  apply (noop_on_missing_or_foreign_id Toy.number_to_text Toy.text_to_integer
           Demo.carol "1" Demo.omar Demo.db).
  exact example_row_1_is_not_carols.
Defined.

(** C4 on the example: a token signed with another secret. *)
Lemma unauthenticated_rejected_witness :
  unauthenticated Demo.secret Toy.jwt_verify
    (Some ("Bearer " +:+ Toy.jwt_sign Demo.alice "another-secret")) ∧
  ∃ error,
    app Demo.secret Toy.bcrypt_hash Toy.bcrypt_compare Toy.jwt_sign
      Toy.jwt_verify Toy.number_to_text Toy.text_to_integer
      (DeleteVehicle
         (Some ("Bearer " +:+ Toy.jwt_sign Demo.alice "another-secret")) "1")
      Demo.db
    = (res_json 401 (ErrorBody error), Demo.db).
Proof.
  assert (unauthenticated Demo.secret Toy.jwt_verify
            (Some ("Bearer " +:+ Toy.jwt_sign Demo.alice "another-secret")))
    as Hun by (vm_compute; right; reflexivity).
  split; [exact Hun |].
  destruct (unauthenticated_rejected Demo.secret Toy.bcrypt_hash
              Toy.bcrypt_compare Toy.jwt_sign Toy.jwt_verify
              Toy.number_to_text Toy.text_to_integer _ Demo.db Hun)
    as (error & _ & _ & Happ).
  exists error. apply Happ. reflexivity.
Defined.

(** C5 on the example: the scenario's account, signed up a second time
    under another password and garage name, starting from the empty
    database. *)
Lemma duplicate_email_signup_witness :
  AuthForm.email Demo.first_signup = AuthForm.email Demo.second_signup ∧
  length (users (signup Demo.secret Toy.bcrypt_hash Toy.jwt_sign
                   Toy.number_to_text
                   (AuthForm.to_json Demo.first_signup) "s1" empty_db).2)
  = 1%nat ∧
  signup Demo.secret Toy.bcrypt_hash Toy.jwt_sign Toy.number_to_text
    (AuthForm.to_json Demo.second_signup) "s2"
    (signup Demo.secret Toy.bcrypt_hash Toy.jwt_sign Toy.number_to_text
       (AuthForm.to_json Demo.first_signup) "s1" empty_db).2
  = (res_json 400 (ErrorBody "Email already exists"),
     (signup Demo.secret Toy.bcrypt_hash Toy.jwt_sign Toy.number_to_text
        (AuthForm.to_json Demo.first_signup) "s1" empty_db).2).
Proof.
  split; [reflexivity |]. split; [reflexivity |].
  apply (duplicate_email_signup Demo.secret Toy.bcrypt_hash Toy.jwt_sign
           Toy.number_to_text Demo.first_signup Demo.second_signup
           "s1" "s2" empty_db).
  reflexivity.
Defined.




(** C7 on the example: Alice creates a record and lists. *)
Lemma create_list_roundtrip_witness :
  rowids_increasing Demo.db ∧
  userId Demo.alice ∈ (Users.id <$> users Demo.db) ∧
  Forall (λ c, textual ((VehicleForm.to_json Demo.jane) !! c.1))
    vehicle_columns ∧
  ∃ row,
    (get_vehicles Demo.alice
       (post_vehicles Toy.number_to_text Toy.text_to_integer Demo.alice
          (VehicleForm.to_json Demo.jane) Demo.db).2).1
    = res_json 200
        (VehiclesBody (row :: vehicles_select (userId Demo.alice) Demo.db)) ∧
    Vehicles.id row = 4 ∧
    Vehicles.user_id row = 1 ∧
    Forall (λ c, c.2 row = text_of ((VehicleForm.to_json Demo.jane) !! c.1) ∧
                 js_of_text (c.2 row)
                 = default JsNull ((VehicleForm.to_json Demo.jane) !! c.1))
      vehicle_columns.
Proof.
  assert (rowids_increasing Demo.db) as Hok by (by_evaluation).
  assert (userId Demo.alice ∈ (Users.id <$> users Demo.db))
    as Hfk by (by_evaluation).
  assert (Forall (λ c, textual ((VehicleForm.to_json Demo.jane) !! c.1))
            vehicle_columns) as Hall by (by_evaluation).
  split; [exact Hok |]. split; [exact Hfk |]. split; [exact Hall |].
  apply (create_list_roundtrip Toy.number_to_text Toy.text_to_integer
           Demo.alice (VehicleForm.to_json Demo.jane) Demo.db Hok Hfk Hall).
Defined.

(** C7 as the specification words it, for every submitted field set, fails
    on a field that is a JSON number: the create is answered 200, and the
    list that follows returns the new record with the text SQLite stores
    for the number, a string, where the number was submitted. *)
Lemma create_list_roundtrip_number_counterexample :
  Demo.numeric_phone !! "phone" = Some (JsNumber 555) ∧
  status (post_vehicles Toy.number_to_text Toy.text_to_integer Demo.alice
            Demo.numeric_phone Demo.db).1 = 200 ∧
  ∃ row rest,
    (get_vehicles Demo.alice
       (post_vehicles Toy.number_to_text Toy.text_to_integer Demo.alice
          Demo.numeric_phone Demo.db).2).1
    = res_json 200 (VehiclesBody (row :: rest)) ∧
    Vehicles.id row = 4 ∧
    Vehicles.phone row = Some "555.0" ∧
    Some (js_of_text (Vehicles.phone row)) ≠ Demo.numeric_phone !! "phone".
Proof.
  split; [reflexivity |]. split; [reflexivity |].
  eexists _, _. split; [vm_compute; reflexivity |].
  split; [reflexivity |]. split; [reflexivity |].
  vm_compute. discriminate.
Qed.

(** C8 on the example: Alice's two rows, the later one first. *)
Lemma list_most_recent_first_witness :
  rowids_increasing Demo.db ∧
  get_vehicles Demo.alice Demo.db
  = (res_json 200
       (VehiclesBody
          [ VehicleForm.to_row 3 1 Demo.omar;
            VehicleForm.to_row 1 1 Demo.jane ]),
     Demo.db).
Proof.
  assert (rowids_increasing Demo.db) as Hok by (by_evaluation).
  split; [exact Hok |].
  apply (list_most_recent_first Demo.alice Demo.db Hok).
Defined.

(** C10 on the example: a create whose body says [id: 999] is answered
    with [id: 999], not with the rowid 4 the stored row carries. *)
Lemma create_response_echoes_body_id_witness :
  userId Demo.alice ∈ (Users.id <$> users Demo.db) ∧
  (post_vehicles Toy.number_to_text Toy.text_to_integer Demo.alice
     Demo.body_with_id Demo.db).1
  = res_json 200 (ObjectBody Demo.body_with_id) ∧
  Demo.body_with_id !! "id" = Some (JsNumber 999) ∧
  last (vehicles (post_vehicles Toy.number_to_text Toy.text_to_integer
                    Demo.alice Demo.body_with_id Demo.db).2)
  = Some (VehicleForm.to_row 4 1 Demo.jane) ∧
  (post_vehicles Toy.number_to_text Toy.text_to_integer Demo.alice
     Demo.body_with_id Demo.db).1
  ≠ (post_vehicles Toy.number_to_text Toy.text_to_integer Demo.alice
       (VehicleForm.to_json Demo.jane) Demo.db).1.
Proof.
  assert (userId Demo.alice ∈ (Users.id <$> users Demo.db))
    as Hfk by (by_evaluation).
  split; [exact Hfk |].
  destruct (proj1 (create_response_echoes_body_id Toy.number_to_text
                     Toy.text_to_integer Demo.alice
                     Demo.jane (JsNumber 999) Demo.db) Hfk)
    as (Hres & Hid & Hrows & Hdiffer).
  split; [exact Hres |]. split; [exact Hid |].
  split; [exact (f_equal last Hrows) |].
  apply Hdiffer. vm_compute. discriminate.
Defined.

(** The scenario of the specification, through the routes: sign up
    [a@x.com], create Jane's record with the token of the signup, list.  The
    list is that one record, under id 1. *)
Example scenario_signup_create_list :
  let app :=
    app Demo.secret Toy.bcrypt_hash Toy.bcrypt_compare Toy.jwt_sign
      Toy.jwt_verify Toy.number_to_text Toy.text_to_integer in
  let bearer := Some "Bearer fallback-secret:1" in
  let signed_up :=
    app (PostSignup (AuthForm.to_json Demo.first_signup) "s1") empty_db in
  let created :=
    app (PostVehicles bearer (VehicleForm.to_json Demo.jane)) signed_up.2 in
  let listed := app (GetVehicles bearer) created.2 in
  signed_up.1
  = res_json 200
      (AuthBody "fallback-secret:1" (Some (JsString "a@x.com"))
         (Some (JsString "Bob's Garage"))) ∧
  created.1
  = res_json 200
      (ObjectBody (<["id" := JsNumber 1]> (VehicleForm.to_json Demo.jane))) ∧
  listed.1 = res_json 200 (VehiclesBody [VehicleForm.to_row 1 1 Demo.jane]).
Proof. repeat split; vm_compute; reflexivity. Qed.

(** Emails that differ only in case are two accounts. *)
Example signup_is_case_sensitive :
  let signup :=
    signup Demo.secret Toy.bcrypt_hash Toy.jwt_sign Toy.number_to_text in
  let upper :=
    {| AuthForm.email := "A@x.com"; AuthForm.password := "pw123";
       AuthForm.garageName := "Bob's Garage" |} in
  let db1 := (signup (AuthForm.to_json Demo.first_signup) "s1" empty_db).2 in
  status (signup (AuthForm.to_json upper) "s2" db1).1 = 200 ∧
  length (users (signup (AuthForm.to_json upper) "s2" db1).2) = 2%nat.
Proof. repeat split; vm_compute; reflexivity. Qed.

(** Outside the forms: a body whose [password] is missing makes
    [bcrypt.compare] throw once a row is found, which the [catch] of the login
    route answers with 500; with no row found the answer is 401. *)
Example login_without_password :
  let login :=
    login Demo.secret Toy.bcrypt_compare Toy.jwt_sign Toy.number_to_text in
  login {[ "email" := JsString "a@x.com" ]} Demo.db
  = (res_json 500 (ErrorBody "Internal server error"), Demo.db) ∧
  login {[ "email" := JsString "nobody@x.com" ]} Demo.db
  = (res_json 401 (ErrorBody "Invalid credentials"), Demo.db).
Proof. repeat split; vm_compute; reflexivity. Qed.

(** Outside the forms: a field that better-sqlite3 cannot bind makes the
    update throw before it runs; Express answers 500 and no row changes. *)
Example put_vehicle_unbindable_field :
  put_vehicle Toy.number_to_text Toy.text_to_integer Demo.carol "1"
    {[ "owner_name" := JsBoolean true ]} Demo.db
  = (res_json 500
       (UncaughtBody
          {| message :=
               "SQLite3 can only bind numbers, strings, bigints, buffers, and null" |}),
     Demo.db).
Proof. vm_compute. reflexivity. Qed.

(** Outside the forms: an array is spread over the parameters, so a field
    sent as a one-element array is bound like its element.  A signup whose
    [email] is [["a@x.com"]] hits the UNIQUE constraint of the stored
    email; a login under it finds Alice's row. *)
Example email_in_an_array :
  signup Demo.secret Toy.bcrypt_hash Toy.jwt_sign Toy.number_to_text
    (<["email" := JsArray [JsString "a@x.com"]]>
       (AuthForm.to_json Demo.second_signup)) "s3" Demo.db
  = (res_json 400 (ErrorBody "Email already exists"), Demo.db) ∧
  status
    (login Demo.secret Toy.bcrypt_compare Toy.jwt_sign Toy.number_to_text
       (<["email" := JsArray [JsString "a@x.com"]]>
          (AuthForm.to_json Demo.first_signup)) Demo.db).1
  = 200.
Proof. split; vm_compute; reflexivity. Qed.

(** A create whose [phone] is [["555"]] stores the text 555; an empty array
    binds nothing and leaves the statement one value short. *)
Example field_in_an_array :
  last (vehicles
          (post_vehicles Toy.number_to_text Toy.text_to_integer Demo.alice
             (<["phone" := JsArray [JsString "555"]]>
                (VehicleForm.to_json Demo.jane)) Demo.db).2)
  = Some (VehicleForm.to_row 4 1 Demo.jane) ∧
  post_vehicles Toy.number_to_text Toy.text_to_integer Demo.alice
    (<["phone" := JsArray []]> (VehicleForm.to_json Demo.jane)) Demo.db
  = (res_json 500
       (UncaughtBody
          {| message := "Too few parameter values were provided" |}),
     Demo.db).
Proof. split; vm_compute; reflexivity. Qed.

(** A token that is valid but names an account with no row: the INSERT
    fails on the foreign key, Express answers 500 and nothing is stored. *)
Example create_without_account :
  app Demo.secret Toy.bcrypt_hash Toy.bcrypt_compare Toy.jwt_sign
    Toy.jwt_verify Toy.number_to_text Toy.text_to_integer
    (PostVehicles (Some "Bearer fallback-secret:99")
       (VehicleForm.to_json Demo.jane)) Demo.db
  = (res_json 500
       (UncaughtBody {| message := "FOREIGN KEY constraint failed" |}),
     Demo.db).
Proof. vm_compute. reflexivity. Qed.

(** The header needs a second piece: [Bearer] alone, or two spaces before
    the token, are answered "Unauthorized". *)
Example authenticate_needs_second_piece :
  bearer_token (Some "Bearer") = None ∧
  bearer_token (Some "Bearer  fallback-secret:1") = Some EmptyString ∧
  bearer_token (Some "Bearer fallback-secret:1") = Some "fallback-secret:1" ∧
  bearer_token None = None.
Proof. repeat split; reflexivity. Qed.

(** ** The search box and the counters of the component *)

Lemma append_String (c : ascii) (a b : string) :
  String c a +:+ b = String c (a +:+ b).
Proof. reflexivity. Qed.

Lemma prefix_occurs (needle haystack : string) :
  String.prefix needle haystack = true ↔ ∃ after, haystack = needle +:+ after.
Proof.
  revert haystack. induction needle as [|c needle IH]; intros haystack.
  - split; [intros _; by exists haystack | intros _; by destruct haystack].
  - destruct haystack as [|c' haystack]; simpl.
    + split; [intros H; discriminate H | intros [after H]; discriminate H].
    + destruct (ascii_dec c c') as [<- | Hne].
      * rewrite IH.
        split; intros [after Heq]; exists after;
          rewrite append_String in *; congruence.
      * split; [done | intros [after Heq]; rewrite append_String in Heq;
                       congruence].
Qed.

Lemma includes_occurs (haystack needle : string) :
  includes haystack needle = true ↔ occurs_in needle haystack.
Proof.
  unfold occurs_in. induction haystack as [|c haystack IH].
  - change (includes EmptyString needle)
      with (String.prefix needle EmptyString || false).
    rewrite orb_false_r, prefix_occurs. split.
    + intros [after ->]. by exists EmptyString, after.
    + intros ([|c before] & after & Heq); [by exists after | done].
  - change (includes (String c haystack) needle)
      with (String.prefix needle (String c haystack) || includes haystack needle).
    rewrite orb_true_iff, prefix_occurs, IH. split.
    + intros [[after ->] | (before & after & ->)].
      * by exists EmptyString, after.
      * by exists (String c before), after.
    + intros ([|c' before] & after & Heq).
      * left. by exists after.
      * right. exists before, after. rewrite append_String in Heq.
        congruence.
Qed.

(** X15.  The search box.  With an empty search every vehicle is shown.
    For any search, what is shown is a sub-list of the vehicles, in their
    order, and a vehicle is shown exactly when the lower-cased search occurs
    in its lower-cased owner name or vehicle number, or the search as typed
    occurs in its phone. *)
Theorem filteredVehicles_shows
    (toLowerCase : string → string) (vehicles : list Vehicle.t) :
  filteredVehicles toLowerCase vehicles EmptyString = vehicles ∧
  ∀ search,
    filteredVehicles toLowerCase vehicles search `sublist_of` vehicles ∧
    ∀ v, v ∈ filteredVehicles toLowerCase vehicles search ↔
         v ∈ vehicles ∧
         (occurs_in (toLowerCase search) (toLowerCase (Vehicle.owner_name v)) ∨
          occurs_in (toLowerCase search)
            (toLowerCase (Vehicle.vehicle_number v)) ∨
          occurs_in search (Vehicle.phone v)).
Proof.
  unfold filteredVehicles. split.
  - induction vehicles as [|v vehicles IH]; [done |].
    rewrite filter_cons_True, IH; [done |].
    unfold search_matches. apply Is_true_true.
    rewrite !orb_true_iff. right. by destruct (Vehicle.phone v).
  - intros search. split; [apply sublist_filter |].
    intros v. rewrite list_elem_of_filter. unfold search_matches.
    rewrite Is_true_true, !orb_true_iff, !includes_occurs.
    split.
    + intros [Hmatch Hin]. split; [done |].
      destruct Hmatch as [[? | ?] | ?]; auto.
    + intros [Hin Hmatch]. split; [| done].
      destruct Hmatch as [? | [? | ?]]; auto.
Qed.

(** X16.  The counters of the dashboard.  Whatever the dates and "now", no
    vehicle is counted both as overdue and as upcoming, so the two counters
    together never exceed the total. *)
Theorem stats_counters_bounded
    (parseISO : string → option Z) (addDays : Z → Z → Z)
    (vehicles : list Vehicle.t) (today : Z) :
  (overdue (stats parseISO addDays vehicles today)
   + upcoming (stats parseISO addDays vehicles today)
   ≤ total (stats parseISO addDays vehicles today))%nat ∧
  ∀ v, is_upcoming addDays (parseISO (Vehicle.next_service_date v)) today = true →
       isOverdue parseISO v today = false.
Proof.
  split; [| intros v; apply is_upcoming_not_overdue].
  simpl. induction vehicles as [|v vehicles IH]; [done |].
  rewrite !filter_cons. simpl.
  destruct (is_upcoming addDays (parseISO (Vehicle.next_service_date v)) today)
    eqn:Hup.
  - rewrite (is_upcoming_not_overdue _ _ _ Hup). simpl. lia.
  - destruct (is_overdue (parseISO (Vehicle.next_service_date v)) today);
      simpl; lia.
Qed.

(** ** The further properties at work on the example data *)

(** X3 on the example: the scenario's account signs up in the empty
    database and logs in. *)
Lemma signup_then_login_witness :
  Toy.bcrypt_compare (AuthForm.password Demo.first_signup)
    (Toy.bcrypt_hash (AuthForm.password Demo.first_signup) 10 "s1") = true ∧
  (Some (AuthForm.email Demo.first_signup) ∉ (Users.email <$> users empty_db)) ∧
  (login Demo.secret Toy.bcrypt_compare Toy.jwt_sign Toy.number_to_text
     (AuthForm.to_json Demo.first_signup)
     (signup Demo.secret Toy.bcrypt_hash Toy.jwt_sign Toy.number_to_text
        (AuthForm.to_json Demo.first_signup) "s1" empty_db).2).1
  = res_json 200
      (AuthBody "fallback-secret:1" (Some (JsString "a@x.com"))
         (Some (JsString "Bob's Garage"))).
Proof.
  assert (Toy.bcrypt_compare (AuthForm.password Demo.first_signup)
            (Toy.bcrypt_hash (AuthForm.password Demo.first_signup) 10 "s1")
          = true) as Hcompare by reflexivity.
  assert (Some (AuthForm.email Demo.first_signup)
            ∉ (Users.email <$> users empty_db)) as Hfresh
    by (by_evaluation).
  split; [exact Hcompare |]. split; [exact Hfresh |].
  destruct (signup_then_login Demo.secret Toy.bcrypt_hash Toy.bcrypt_compare
              Toy.jwt_sign Toy.number_to_text Demo.first_signup "s1" empty_db
              Hcompare Hfresh) as [_ Hlogin].
  exact (f_equal fst Hlogin).
Defined.

(** X6 on the example: Alice rewrites her record 3 with Jane's fields. *)
Lemma put_vehicle_rewrites_own_record_witness :
  rowids_increasing Demo.db ∧
  vehicles Demo.db !! 2%nat = Some Sample.row_3 ∧
  vehicles (put_vehicle Toy.number_to_text Toy.text_to_integer Demo.alice "3"
              (VehicleForm.to_json Demo.jane) Demo.db).2
  = [ VehicleForm.to_row 1 1 Demo.jane;
      VehicleForm.to_row 2 2 Demo.omar;
      VehicleForm.to_row 3 1 Demo.jane ].
Proof.
  assert (rowids_increasing Demo.db) as Hok by (by_evaluation).
  split; [exact Hok |]. split; [reflexivity |].
  exact (f_equal (λ res : Response * Db, vehicles res.2)
           (put_vehicle_rewrites_own_record Toy.number_to_text
              Toy.text_to_integer Demo.alice "3" Demo.jane Demo.db 2
              Sample.row_3 Hok eq_refl eq_refl eq_refl)).
Defined.

(** X7 on the example: Alice deletes her record 3. *)
Lemma delete_vehicle_removes_own_record_witness :
  rowids_increasing Demo.db ∧
  vehicles Demo.db !! 2%nat = Some Sample.row_3 ∧
  vehicles (delete_vehicle Toy.text_to_integer Demo.alice "3" Demo.db).2
  = [ VehicleForm.to_row 1 1 Demo.jane; VehicleForm.to_row 2 2 Demo.omar ].
Proof.
  assert (rowids_increasing Demo.db) as Hok by (by_evaluation).
  split; [exact Hok |]. split; [reflexivity |].
  exact (f_equal (λ res : Response * Db, vehicles res.2)
           (delete_vehicle_removes_own_record Toy.text_to_integer Demo.alice
              "3" Demo.db 2 Sample.row_3 Hok eq_refl eq_refl eq_refl)).
Defined.

(** X9 on the example: Alice deletes her record 3 and creates a record; the
    new record is 4, not 3. *)
Lemma rowids_never_reused_witness :
  seq_dominates Demo.db ∧
  Vehicles.id <$>
    vehicles (run Demo.secret Toy.bcrypt_hash Toy.bcrypt_compare Toy.jwt_sign
                Toy.jwt_verify Toy.number_to_text Toy.text_to_integer
                Sample.delete_then_create Demo.db)
  = [1; 2; 4] ∧
  seq_dominates
    (run Demo.secret Toy.bcrypt_hash Toy.bcrypt_compare Toy.jwt_sign
       Toy.jwt_verify Toy.number_to_text Toy.text_to_integer
       Sample.delete_then_create Demo.db).
Proof.
  assert (seq_dominates Demo.db) as Hdom by (by_evaluation).
  split; [exact Hdom |]. split; [reflexivity |].
  exact (proj1 (rowids_never_reused Demo.secret Toy.bcrypt_hash
                  Toy.bcrypt_compare Toy.jwt_sign Toy.jwt_verify
                  Toy.number_to_text Toy.text_to_integer
                  Sample.delete_then_create Demo.db Hdom)).
Defined.

(** X11 on the example: the first word of the header is not [Bearer]. *)
Lemma authenticate_reads_second_piece_witness :
  has_space "Token" = false ∧
  has_space Sample.token = false ∧
  Sample.token ≠ EmptyString ∧
  Toy.jwt_verify Sample.token Demo.secret = Some Sample.alice ∧
  authenticate Demo.secret Toy.jwt_verify (Some ("Token " +:+ Sample.token))
    get_vehicles Demo.db
  = get_vehicles Sample.alice Demo.db.
Proof.
  assert (Sample.token ≠ EmptyString) as Hne by discriminate.
  split; [reflexivity |]. split; [reflexivity |]. split; [exact Hne |].
  split; [reflexivity |].
  exact (authenticate_reads_second_piece Demo.secret Toy.jwt_verify
           "Token" Sample.token Sample.alice get_vehicles Demo.db
           eq_refl eq_refl Hne eq_refl).
Defined.

(** X12 on the example: Alice opens the edit form on her record 1 and
    submits it as it is. *)
Lemma edit_unchanged_is_noop_witness :
  rowids_increasing Demo.db ∧
  vehicle_of_row Sample.row_1 = Some Demo.jane_vehicle ∧
  Toy.text_to_integer (id_string (Vehicles.id Sample.row_1))
  = Some (Vehicles.id Sample.row_1) ∧
  app Demo.secret Toy.bcrypt_hash Toy.bcrypt_compare Toy.jwt_sign
    Toy.jwt_verify Toy.number_to_text Toy.text_to_integer
    (handleVehicleSubmit Sample.token (Some Demo.jane_vehicle)
       (openEditModal Demo.jane_vehicle)) Demo.db
  = (res_json 200 SuccessBody, Demo.db).
Proof.
  assert (rowids_increasing Demo.db) as Hok by (by_evaluation).
  assert (Sample.token ≠ EmptyString) as Hne by discriminate.
  split; [exact Hok |]. split; [reflexivity |]. split; [reflexivity |].
  exact (edit_unchanged_is_noop Demo.secret Toy.bcrypt_hash Toy.bcrypt_compare
           Toy.jwt_sign Toy.jwt_verify Toy.number_to_text Toy.text_to_integer
           Sample.token Sample.alice Demo.db 0 Sample.row_1 Demo.jane_vehicle
           eq_refl Hne eq_refl Hok eq_refl eq_refl eq_refl eq_refl).
Defined.

(** X13 on the example: Alice rewrites her record 3 and lists. *)
Lemma update_then_list_witness :
  rowids_increasing Demo.db ∧
  (get_vehicles Demo.alice
     (put_vehicle Toy.number_to_text Toy.text_to_integer Demo.alice "3"
        (VehicleForm.to_json Demo.jane) Demo.db).2).1
  = res_json 200
      (VehiclesBody
         [ VehicleForm.to_row 3 1 Demo.jane; VehicleForm.to_row 1 1 Demo.jane ]).
Proof.
  assert (rowids_increasing Demo.db) as Hok by (by_evaluation).
  split; [exact Hok |].
  exact (update_then_list Toy.number_to_text Toy.text_to_integer Demo.alice
           "3" Demo.jane Demo.db Hok).
Defined.

(** X14 on the example: Alice deletes her record 3 and lists. *)
Lemma delete_then_list_witness :
  rowids_increasing Demo.db ∧
  (get_vehicles Demo.alice
     (delete_vehicle Toy.text_to_integer Demo.alice "3" Demo.db).2).1
  = res_json 200 (VehiclesBody [ VehicleForm.to_row 1 1 Demo.jane ]).
Proof.
  assert (rowids_increasing Demo.db) as Hok by (by_evaluation).
  split; [exact Hok |].
  exact (delete_then_list Toy.text_to_integer Demo.alice "3" Demo.db Hok).
Defined.

(** X16 on the example: a record due on 2024-01-02, seen at the midnight
    and at the noon of that day. *)
Lemma stats_counters_bounded_witness :
  (overdue (stats Toy.parseISO Toy.addDays Sample.vehicles Demo.noon)
   + upcoming (stats Toy.parseISO Toy.addDays Sample.vehicles Demo.noon)
   ≤ total (stats Toy.parseISO Toy.addDays Sample.vehicles Demo.noon))%nat.
Proof.
  exact (proj1 (stats_counters_bounded Toy.parseISO Toy.addDays
                  Sample.vehicles Demo.noon)).
Defined.
